(** * Timeline scale and region layout engine of the openscreen video editor

    A shallow embedding of the computational core of
    [src/components/video-editor/timeline/TimelineEditor.tsx] and the
    properties its specification states about it.

    Number model.  The source computes with IEEE doubles.
    - Region bounds, spans, [totalMs] and the minimum item duration are
      integer milliseconds ([Z]); the code only compares, adds, subtracts
      and takes [Math.max]/[Math.min] of them, which is exact on integers
      of that size.
    - A duration in seconds, the viewport range and the arguments of the
      axis are rationals ([Q]): they may be fractional, and the code rounds
      them with [Math.round] / [Math.ceil].  Quotients are the exact ones.
    - [Number.prototype.toFixed] rounds the binary value of a double.  On a
      millisecond count that is not an exact decimal midpoint the result is
      the one of the exact quotient; on a midpoint the binary expansion
      decides, and the embedding takes that decision as the parameter
      [tieUp]. *)

From Stdlib Require Import ZArith QArith Qround Qabs Qminmax Bool List Lia Lqa.
From Stdlib Require Import Strings.String Strings.Ascii.
From Stdlib Require Import Numbers.DecimalString Numbers.DecimalPos Numbers.DecimalN.
From Stdlib Require Import Sorting.Sorted Sorting.Permutation.
Import ListNotations.

Local Open Scope Z_scope.

(* ================================================================== *)
(** * Part I.  The embedding                                           *)
(* ================================================================== *)

(** ** JavaScript primitives used by the file *)

(** [Math.round]: nearest integer, halves towards plus infinity. *)
Definition Math_round (x : Q) : Z := Qfloor (x + (1 # 2)).

(** [Math.ceil] and [Math.floor]. *)
Definition Math_ceil (x : Q) : Z := Qceiling x.
Definition Math_floor (x : Q) : Z := Qfloor x.

(** [Array.prototype.sort] with a comparator: a stable insertion sort.
    [Array_insert] puts [x] in front of the first element it does not
    compare greater than, so elements that compare equal keep their order. *)
Fixpoint Array_insert {A : Type} (cmp : A -> A -> Z) (x : A) (l : list A) : list A :=
  match l with
  | [] => [x]
  | y :: l' => if cmp x y <=? 0 then x :: y :: l' else y :: Array_insert cmp x l'
  end.

Definition Array_sort {A : Type} (cmp : A -> A -> Z) (l : list A) : list A :=
  fold_right (Array_insert cmp) [] l.

(** ** Data model *)

(** [ZoomRegion] of [../types]: an identifier and its extent. *)
Record ZoomRegion : Type := mkZoomRegion {
  id : string;
  startMs : Z;
  endMs : Z
}.

(** [Span] of dnd-timeline: [{ start, end }]. *)
Record Span : Type := mkSpan {
  span_start : Z;
  span_end : Z
}.

(** ** Region Normalizer (the second [useEffect] of [TimelineEditor]) *)

(** [safeMinDurationMs]: the minimum item duration, capped by the duration
    when a duration is known. *)
Definition safeMinDurationMs (minItemDurationMs totalMs : Z) : Z :=
  if totalMs >? 0 then Z.min minItemDurationMs totalMs else minItemDurationMs.

(** The body of the [forEach] callback up to the comparison: the pair
    [{ start: normalizedStart, end: normalizedEnd }]. *)
Definition normalizeRegion (totalMs safeMin : Z) (region : ZoomRegion) : Span :=
  let clampedStart := Z.max 0 (Z.min (startMs region) totalMs) in
  let minEnd := clampedStart + safeMin in
  let clampedEnd := Z.min totalMs (Z.max minEnd (endMs region)) in
  let normalizedStart := Z.max 0 (Z.min clampedStart (totalMs - safeMin)) in
  let normalizedEnd := Z.max minEnd (Z.min clampedEnd totalMs) in
  mkSpan normalizedStart normalizedEnd.

(** One call [onZoomSpanChange(id, span)]. *)
Definition SpanChange : Type := (string * Span)%type.

(** The effect: the calls of [onZoomSpanChange] it makes, in order. *)
Definition normalizationEffect (totalMs safeMin : Z) (zoomRegions : list ZoomRegion)
  : list SpanChange :=
  if (totalMs =? 0) || (safeMin <=? 0) then []
  else
    flat_map
      (fun region =>
         let s := normalizeRegion totalMs safeMin region in
         if negb (span_start s =? startMs region) || negb (span_end s =? endMs region)
         then [(id region, s)]
         else [])
      zoomRegions.

(** The region once the owning store has taken the span the effect asks
    for: [onZoomSpanChange(region.id, span)] replaces its bounds. *)
Definition normalizedRegion (totalMs safeMin : Z) (region : ZoomRegion) : ZoomRegion :=
  let s := normalizeRegion totalMs safeMin region in
  mkZoomRegion (id region) (span_start s) (span_end s).

(** ** Overlap/Gap Detector ([hasOverlap]) *)

(** [region.id === excludeId], where [excludeId] may be [undefined]. *)
Definition isExcluded (region : ZoomRegion) (excludeId : option string) : bool :=
  match excludeId with
  | Some e => String.eqb (id region) e
  | None => false
  end.

(** The callback given to [zoomRegions.some]. *)
Definition conflictsWith (newSpan : Span) (excludeId : option string)
  (region : ZoomRegion) : bool :=
  if isExcluded region excludeId then false
  else
    let gapBefore := span_start newSpan - endMs region in
    let gapAfter := startMs region - span_end newSpan in
    if (gapBefore >? 0) && (gapBefore <=? 2) then true
    else if (gapAfter >? 0) && (gapAfter <=? 2) then true
    else negb ((span_end newSpan <=? startMs region)
               || (span_start newSpan >=? endMs region)).

Definition hasOverlap (zoomRegions : list ZoomRegion) (newSpan : Span)
  (excludeId : option string) : bool :=
  existsb (conflictsWith newSpan excludeId) zoomRegions.

(** Geometric overlap of a span and a region: the last line of the
    callback.  Intervals that touch only at a boundary do not overlap. *)
Definition overlaps (s : Span) (region : ZoomRegion) : bool :=
  negb ((span_end s <=? startMs region) || (span_start s >=? endMs region)).

(** ** Placement Finder ([handleAddZoom]) *)

(** What a click on "Add Zoom" does. *)
Inductive AddZoomResult : Type :=
| NoAction                      (* an early [return] *)
| NoSpaceAvailable              (* [toast.error("No space available")] *)
| ZoomAdded (span : Span).      (* [onZoomAdded(span)] *)

(** The [for ... of] loop over the sorted regions, with its [break]. *)
Fixpoint scanRegions (defaultDuration startPos : Z) (sorted : list ZoomRegion) : Z :=
  match sorted with
  | [] => startPos
  | region :: rest =>
      if startPos + defaultDuration <=? startMs region then startPos
      else scanRegions defaultDuration (Z.max startPos (endMs region)) rest
  end.

Definition byStartMs (a b : ZoomRegion) : Z := startMs a - startMs b.

Definition defaultDurationMs (safeMin totalMs : Z) : Z :=
  Z.min (Z.max 3000 safeMin) totalMs.

(** [videoDuration] is the duration in seconds; [!videoDuration] holds of a
    number exactly when it is zero (or NaN, which [Q] does not have). *)
Definition handleAddZoom (videoDuration : Q) (totalMs safeMin : Z)
  (zoomRegions : list ZoomRegion) : AddZoomResult :=
  if Qeq_bool videoDuration 0 || Qeq_bool videoDuration 0 || (totalMs =? 0) then NoAction
  else
    let defaultDuration := defaultDurationMs safeMin totalMs in
    if defaultDuration <=? 0 then NoAction
    else
      let sorted := Array_sort byStartMs zoomRegions in
      let startPos := scanRegions defaultDuration 0 sorted in
      if startPos + defaultDuration >? totalMs then NoSpaceAvailable
      else ZoomAdded (mkSpan startPos (startPos + defaultDuration)).

(** [totalMs] as [TimelineEditor] derives it from [videoDuration]. *)
Definition totalMsOf (videoDuration : Q) : Z :=
  Z.max 0 (Math_round (videoDuration * 1000)).

(** ** Scale Selector ([calculateTimelineScale]) *)

Record ScaleCandidate : Type := mkCandidate {
  intervalSeconds : Q;
  gridSeconds : Q
}.

Definition SCALE_CANDIDATES : list ScaleCandidate :=
  [ mkCandidate (1 # 4) (1 # 20);
    mkCandidate (1 # 2) (1 # 10);
    mkCandidate 1 (1 # 4);
    mkCandidate 2 (1 # 2);
    mkCandidate 5 1;
    mkCandidate 10 2;
    mkCandidate 15 3;
    mkCandidate 30 5;
    mkCandidate 60 10;
    mkCandidate 120 20;
    mkCandidate 300 30;
    mkCandidate 600 60;
    mkCandidate 900 120;
    mkCandidate 1800 180;
    mkCandidate 3600 300 ].

Definition TARGET_MARKER_COUNT : Q := 12.

Record TimelineScaleConfig : Type := mkScale {
  intervalMs : Z;
  gridMs : Z;
  minItemDurationMs : Z;
  defaultItemDurationMs : Z;
  minVisibleRangeMs : Z
}.

(** The callback given to [SCALE_CANDIDATES.find]. *)
Definition candidateFits (durationSeconds : Q) (candidate : ScaleCandidate) : bool :=
  if Qle_bool durationSeconds 0 then true
  else
    let markers := (durationSeconds / intervalSeconds candidate)%Q in
    Qle_bool markers TARGET_MARKER_COUNT.

(** [candidates.find(fits) ?? candidates[candidates.length - 1]]; the table
    is not empty, [fallback] stands for the [undefined] of an empty one. *)
Definition selectCandidate (fits : ScaleCandidate -> bool)
  (candidates : list ScaleCandidate) (fallback : ScaleCandidate) : ScaleCandidate :=
  match find fits candidates with
  | Some candidate => candidate
  | None => nth (List.length candidates - 1) candidates fallback
  end.

Definition calculateTimelineScale (durationSeconds : Q) : TimelineScaleConfig :=
  let totalMs := Z.max 0 (Math_round (durationSeconds * 1000)) in
  let selectedCandidate :=
    selectCandidate (candidateFits durationSeconds) SCALE_CANDIDATES
      (mkCandidate 3600 300) in
  let intervalMs := Math_round (intervalSeconds selectedCandidate * 1000) in
  let gridMs := Math_round (gridSeconds selectedCandidate * 1000) in
  let minItemDurationMs := 1 in
  let defaultItemDurationMs :=
    Z.min (Z.max minItemDurationMs (intervalMs * 2))
          (if totalMs >? 0 then totalMs else intervalMs * 2) in
  let minVisibleRangeMs :=
    if totalMs >? 0
    then Z.min (Z.max (Z.max (intervalMs * 3) (minItemDurationMs * 6)) 1000) totalMs
    else Z.max (Z.max (intervalMs * 3) (minItemDurationMs * 6)) 1000 in
  mkScale intervalMs gridMs minItemDurationMs defaultItemDurationMs minVisibleRangeMs.

(** ** Label Formatter ([formatTimeLabel]) *)

Definition Qltb (x y : Q) : bool := negb (Qle_bool y x).

(** The remainder operator [%] of JavaScript: the result has the sign of
    the dividend. *)
Definition Q_rem (x y : Q) : Q :=
  let q := (x / y)%Q in
  let truncated := if Qle_bool 0 q then Qfloor q else Qceiling q in
  (x - y * inject_Z truncated)%Q.

(** [Number.prototype.toString] of an integer. *)
Definition Number_toString (n : Z) : string :=
  NilZero.string_of_int (Z.to_int n).

Fixpoint String_repeat (c : ascii) (n : nat) : string :=
  match n with
  | O => EmptyString
  | S n' => String c (String_repeat c n')
  end.

(** [s.padStart(targetLength, fill)] with a one-character [fill]. *)
Definition padStart (targetLength : nat) (fill : ascii) (s : string) : string :=
  (String_repeat fill (targetLength - String.length s) ++ s)%string.

(** [s.split(sep)] with a one-character separator. *)
Fixpoint String_split (sep : ascii) (s : string) : list string :=
  match s with
  | EmptyString => [EmptyString]
  | String c s' =>
      if Ascii.eqb c sep then EmptyString :: String_split sep s'
      else match String_split sep s' with
           | [] => [String c EmptyString]
           | w :: ws => String c w :: ws
           end
  end.

(** [Number.prototype.toFixed], step "let n be an integer for which
    n / 10^f - x is as close to zero as possible; if there are two such n,
    pick the larger".  [x] is the exact magnitude; [tieUp] says on which
    side of an exact decimal midpoint the double stands (at or above it,
    or below it). *)
Definition toFixedInteger (tieUp : bool) (x : Q) (fractionDigits : nat) : Z :=
  let scaled := (x * inject_Z (10 ^ Z.of_nat fractionDigits))%Q in
  let below := Qfloor scaled in
  let rest := (scaled - inject_Z below)%Q in
  if Qltb rest (1 # 2) then below
  else if Qltb (1 # 2) rest then below + 1
  else if tieUp then below + 1 else below.

(** [toFixed], the string of the integer [n]: the digits of [n], padded with
    zeros to [f + 1] characters, with a point before the last [f]. *)
Definition toFixedDigits (n : Z) (fractionDigits : nat) : string :=
  let m := Number_toString n in
  match fractionDigits with
  | O => m
  | S _ =>
      let m' := padStart (fractionDigits + 1) "0" m in
      let k := String.length m' in
      (substring 0 (k - fractionDigits) m' ++ "."
         ++ substring (k - fractionDigits) fractionDigits m')%string
  end.

Definition toFixed (tieUp : bool) (x : Q) (fractionDigits : nat) : string :=
  let sign := if Qltb x 0 then "-"%string else ""%string in
  (sign ++ toFixedDigits (toFixedInteger tieUp (Qabs x) fractionDigits) fractionDigits)%string.

(** [tieUp milliseconds] is the side on which the double [seconds] computed
    from [milliseconds] stands when its exact value is a decimal midpoint. *)
Definition formatTimeLabel (tieUp : Z -> bool) (milliseconds : Z) (intervalMs : Q)
  : string :=
  let totalSeconds := (inject_Z milliseconds / 1000)%Q in
  let hours := Math_floor (totalSeconds / 3600) in
  let minutes := Math_floor (Q_rem totalSeconds 3600 / 60) in
  let seconds := Q_rem totalSeconds 60 in
  let fractionalDigits :=
    if Qltb intervalMs 250 then 2%nat
    else if Qltb intervalMs 1000 then 1%nat else 0%nat in
  if hours >? 0 then
    let minutesString := padStart 2 "0" (Number_toString minutes) in
    let secondsString := padStart 2 "0" (Number_toString (Math_floor seconds)) in
    (Number_toString hours ++ ":" ++ minutesString ++ ":" ++ secondsString)%string
  else if (0 <? fractionalDigits)%nat then
    let secondsWithFraction := toFixed (tieUp milliseconds) seconds fractionalDigits in
    match String_split "." secondsWithFraction with
    | wholeSeconds :: fraction :: _ =>
        (Number_toString minutes ++ ":" ++ padStart 2 "0" wholeSeconds
           ++ "." ++ fraction)%string
    | wholeSeconds :: [] =>
        (Number_toString minutes ++ ":" ++ padStart 2 "0" wholeSeconds
           ++ "." ++ "undefined")%string
    | [] => EmptyString
    end
  else
    (Number_toString minutes ++ ":"
       ++ padStart 2 "0" (Number_toString (Math_floor seconds)))%string.

(** *** The time a label denotes *)

(** A string of decimal digits as a number. *)
Definition parseDigits (s : string) : option N :=
  match s with
  | EmptyString => None
  | _ => option_map N.of_uint (NilEmpty.uint_of_string s)
  end.

(** ["SS"] or ["SS.fff"] in seconds. *)
Definition secondsOfField (s : string) : option Q :=
  match String_split "." s with
  | [whole] => option_map (fun w => inject_Z (Z.of_N w)) (parseDigits whole)
  | [whole; fraction] =>
      match parseDigits whole, parseDigits fraction with
      | Some w, Some f =>
          Some (inject_Z (Z.of_N w)
                + inject_Z (Z.of_N f) / inject_Z (10 ^ Z.of_nat (String.length fraction)))%Q
      | _, _ => None
      end
  | _ => None
  end.

(** The time in seconds that a label ["M:SS"], ["M:SS.fff"] or ["H:MM:SS"]
    reads as. *)
Definition labelSeconds (label : string) : option Q :=
  match String_split ":" label with
  | [m; s] =>
      match parseDigits m, secondsOfField s with
      | Some m', Some s' => Some (inject_Z (Z.of_N m') * 60 + s')%Q
      | _, _ => None
      end
  | [h; m; s] =>
      match parseDigits h, parseDigits m, secondsOfField s with
      | Some h', Some m', Some s' =>
          Some (inject_Z (Z.of_N h') * 3600 + inject_Z (Z.of_N m') * 60 + s')%Q
      | _, _, _ => None
      end
  | _ => None
  end.

(** *** Auxiliary definitions for the properties of labels *)

(** [c] does not occur in [s]. *)
Fixpoint noChar (c : ascii) (s : string) : bool :=
  match s with
  | EmptyString => true
  | String a s' => negb (Ascii.eqb a c) && noChar c s'
  end.

(** The integers [0 .. n-1]. *)
Definition upTo (n : Z) : list Z := map Z.of_nat (seq 0 (Z.to_nat n)).

(** The integer [toFixed] settles on, in integer arithmetic: [ms]
    milliseconds counted in units of [unit] milliseconds, to the nearest. *)
Definition roundedUnits (tieUp : bool) (ms unit : Z) : Z :=
  let r := ms mod unit in
  if 2 * r <? unit then ms / unit
  else if unit <? 2 * r then ms / unit + 1
  else if tieUp then ms / unit + 1 else ms / unit.

Definition fractionalDigitsOf (intervalMs : Q) : nat :=
  if Qltb intervalMs 250 then 2%nat
  else if Qltb intervalMs 1000 then 1%nat else 0%nat.

(** The time, in seconds, that the label of [milliseconds] shows. *)
Definition labelTime (tieUp : Z -> bool) (milliseconds : Z) (intervalMs : Q) : Q :=
  let f := fractionalDigitsOf intervalMs in
  if (milliseconds / 3600000 >? 0) || (f =? 0)%nat
  then inject_Z (milliseconds / 1000)
  else (inject_Z (roundedUnits (tieUp milliseconds) milliseconds
                    (1000 / 10 ^ Z.of_nat f))
        / inject_Z (10 ^ Z.of_nat f))%Q.

(** A minute field reads back as its number. *)
Definition minuteFieldOK (n : Z) : bool :=
  let field := Number_toString n in
  noChar ":" field
  && match parseDigits field with
     | Some m => (Z.of_N m =? n)
     | None => false
     end.

(** A field of two digits reads back as its number. *)
Definition twoDigitFieldOK (n : Z) : bool :=
  let field := padStart 2 "0" (Number_toString n) in
  noChar ":" field && noChar "." field
  && match parseDigits field with
     | Some m => (Z.of_N m =? n)
     | None => false
     end.

(** The seconds field with [f] fractional digits made from the integer [n]
    reads back as [n / 10^f]. *)
Definition fractionFieldOK (f : nat) (n : Z) : bool :=
  match String_split "." (toFixedDigits n f) with
  | wholeSeconds :: fraction :: _ =>
      let field := (padStart 2 "0" wholeSeconds ++ "." ++ fraction)%string in
      noChar ":" field
      && match secondsOfField field with
         | Some q => Qeq_bool q (inject_Z n / inject_Z (10 ^ Z.of_nat f))
         | None => false
         end
  | _ => false
  end.

(** ** Marker Generator (the [markers] memo of [TimelineAxis]) *)

(** [Range] of dnd-timeline: the visible part of the timeline. *)
Record Range : Type := mkRange {
  range_start : Q;
  range_end : Q
}.

Record Marker : Type := mkMarker {
  time : Z;
  label : string
}.

(** The result of a computation that divides and loops: a value, a
    quotient that is not a finite number (a division by zero), or a loop
    cut short by the bound of the embedding. *)
Inductive Outcome (A : Type) : Type :=
| Returned (a : A)
| NonFinite
| OutOfFuel.

Arguments Returned {A} a.
Arguments NonFinite {A}.
Arguments OutOfFuel {A}.

Definition bind {A B : Type} (m : Outcome A) (k : A -> Outcome B) : Outcome B :=
  match m with
  | Returned a => k a
  | NonFinite => NonFinite
  | OutOfFuel => OutOfFuel
  end.

Notation "x <- m ;; k" := (bind m (fun x => k))
  (at level 61, m at next level, right associativity).

(** The division [x / y] of doubles, finite only for a divisor other
    than zero. *)
Definition Number_div (x y : Q) : Outcome Q :=
  if Qeq_bool y 0 then NonFinite else Returned (x / y)%Q.

(** [Set.prototype.add]: a set keeps its elements in insertion order. *)
Definition Set_add (x : Z) (s : list Z) : list Z :=
  if existsb (Z.eqb x) s then s else s ++ [x].

(** The [for (let time = firstMarker; time <= maxTime; time += intervalMs)]
    loop; [fuel] bounds the number of iterations. *)
Fixpoint markerLoop (fuel : nat) (intervalMs visibleStart visibleEnd maxTime : Q)
  (time : Q) (markerTimes : list Z) : Outcome (list Z) :=
  if Qle_bool time maxTime then
    match fuel with
    | O => OutOfFuel
    | S fuel' =>
        let markerTimes' :=
          if Qle_bool visibleStart time && Qle_bool time visibleEnd
          then Set_add (Math_round time) markerTimes
          else markerTimes in
        markerLoop fuel' intervalMs visibleStart visibleEnd maxTime
          (time + intervalMs)%Q markerTimes'
    end
  else Returned markerTimes.

(** Iterations the loop can make from [firstMarker]. *)
Definition markerFuel (intervalMs maxTime firstMarker : Q) : nat :=
  Z.to_nat (Qfloor ((maxTime - firstMarker) / intervalMs) + 1).

(** [maxTime], [visibleStart] and [visibleEnd] of the memo. *)
Definition axisMaxTime (videoDurationMs : Q) (range : Range) : Q :=
  if Qltb 0 videoDurationMs then videoDurationMs else range_end range.

Definition axisVisibleStart (videoDurationMs : Q) (range : Range) : Q :=
  Qmax 0 (Qmin (range_start range) (axisMaxTime videoDurationMs range)).

Definition axisVisibleEnd (videoDurationMs : Q) (range : Range) : Q :=
  Qmin (range_end range) (axisMaxTime videoDurationMs range).

Definition markers (tieUp : Z -> bool) (intervalMs : Q) (range : Range)
  (videoDurationMs : Q) : Outcome (list Marker) :=
  if Qle_bool intervalMs 0 then Returned []
  else
    let maxTime := axisMaxTime videoDurationMs range in
    let visibleStart := axisVisibleStart videoDurationMs range in
    let visibleEnd := axisVisibleEnd videoDurationMs range in
    quotient <- Number_div visibleStart intervalMs ;;
    let firstMarker := (inject_Z (Math_ceil quotient) * intervalMs)%Q in
    markerTimes <- markerLoop (markerFuel intervalMs maxTime firstMarker)
                     intervalMs visibleStart visibleEnd maxTime firstMarker [] ;;
    let markerTimes :=
      if Qle_bool visibleStart maxTime
      then Set_add (Math_round visibleStart) markerTimes else markerTimes in
    let markerTimes :=
      if Qltb 0 videoDurationMs
      then Set_add (Math_round videoDurationMs) markerTimes else markerTimes in
    let sorted :=
      Array_sort (fun a b => a - b)
        (filter (fun time => Qle_bool (inject_Z time) maxTime) markerTimes) in
    Returned
      (map (fun time => mkMarker time (formatTimeLabel tieUp time intervalMs)) sorted).

(** [t] is a time of the window [visibleStart, visibleEnd], rounded. *)
Definition windowTime (visibleStart visibleEnd : Q) (t : Z) : Prop :=
  exists x : Q, (visibleStart <= x)%Q /\ (x <= visibleEnd)%Q /\ t = Math_round x.

(** The candidate that [calculateTimelineScale] selects. *)
Definition selected (durationSeconds : Q) : ScaleCandidate :=
  selectCandidate (candidateFits durationSeconds) SCALE_CANDIDATES
    (mkCandidate 3600 300).

(** The order of the candidates of the scale table. *)
Definition interval_le (a b : ScaleCandidate) : Prop :=
  (intervalSeconds a <= intervalSeconds b)%Q.

(** ** The rest of [TimelineEditor] *)

Definition ROW_ID : string := "row-1".
Definition FALLBACK_RANGE_MS : Q := 1000.

(** [createInitialRange]. *)
Definition createInitialRange (totalMs : Q) : Range :=
  if Qltb 0 totalMs then mkRange 0 totalMs else mkRange 0 FALLBACK_RANGE_MS.

(** [currentTimeMs] as [TimelineEditor] derives it from [currentTime]. *)
Definition currentTimeMsOf (currentTime : Q) : Z :=
  Math_round (currentTime * 1000).

(** [safeMinDurationMs] as [TimelineEditor] derives it from
    [videoDuration]. *)
Definition editorSafeMinDurationMs (videoDuration : Q) : Z :=
  safeMinDurationMs (minItemDurationMs (calculateTimelineScale videoDuration))
    (totalMsOf videoDuration).

(** The region effect and the "Add Zoom" handler with the values the
    component gives them. *)
Definition editorNormalizationEffect (videoDuration : Q)
  (zoomRegions : list ZoomRegion) : list SpanChange :=
  normalizationEffect (totalMsOf videoDuration)
    (editorSafeMinDurationMs videoDuration) zoomRegions.

Definition editorHandleAddZoom (videoDuration : Q)
  (zoomRegions : list ZoomRegion) : AddZoomResult :=
  handleAddZoom videoDuration (totalMsOf videoDuration)
    (editorSafeMinDurationMs videoDuration) zoomRegions.

(** The [clampedRange] memo. *)
Definition clampedRange (range : Range) (totalMs : Z) : Range :=
  if totalMs =? 0 then range
  else
    mkRange (Qmax 0 (Qmin (range_start range) (inject_Z totalMs)))
            (Qmin (range_end range) (inject_Z totalMs)).

(** [TimelineRenderItem]. *)
Record TimelineRenderItem : Type := mkItem {
  item_id : string;
  item_rowId : string;
  item_span : Span;
  item_label : string
}.

(** [Array.prototype.map] with the index of the element. *)
Fixpoint Array_mapi {A B : Type} (f : A -> nat -> B) (index : nat) (l : list A)
  : list B :=
  match l with
  | [] => []
  | x :: l' => f x index :: Array_mapi f (S index) l'
  end.

(** The [timelineItems] memo. *)
Definition timelineItems (zoomRegions : list ZoomRegion) : list TimelineRenderItem :=
  Array_mapi
    (fun region index =>
       mkItem (id region) ROW_ID
         (mkSpan (startMs region) (endMs region))
         ("Zoom " ++ Number_toString (Z.of_nat index + 1))%string)
    0 (Array_sort byStartMs zoomRegions).

(** ** [PlaybackCursor] *)

(** [None] stands for [return null]; otherwise the offset in pixels of the
    cursor line.  [valueToPixels] comes from the timeline context. *)
Definition PlaybackCursor (valueToPixels : Q -> Q) (range : Range)
  (currentTimeMs videoDurationMs : Q) : option Q :=
  if Qle_bool videoDurationMs 0 || Qltb currentTimeMs 0 then None
  else
    let clampedTime := Qmin currentTimeMs videoDurationMs in
    if Qltb clampedTime (range_start range) || Qltb (range_end range) clampedTime
    then None
    else
      let offset := valueToPixels (clampedTime - range_start range)%Q in
      Some offset.

(** ** [handleTimelineClick] of [Timeline] *)



(** *** Auxiliary definitions for the properties of regions *)

(** A region that lies within [0, totalMs] and has at least the minimum
    length. *)
Definition validRegion (totalMs safeMin : Z) (region : ZoomRegion) : Prop :=
  0 <= startMs region /\ startMs region + safeMin <= endMs region <= totalMs.

(** A span or region whose end comes after its start. *)
Definition properSpan (s : Span) : Prop := span_start s < span_end s.
Definition properRegion (region : ZoomRegion) : Prop := startMs region < endMs region.

(** The span of a region, and a region of a span. *)
Definition spanOf (region : ZoomRegion) : Span :=
  mkSpan (startMs region) (endMs region).
Definition regionOf (name : string) (s : Span) : ZoomRegion :=
  mkZoomRegion name (span_start s) (span_end s).

(* ================================================================== *)
(** * Part II.  Properties                                             *)
(* ================================================================== *)

(** ** Sorting *)

Section ArraySort.

Context {A : Type}.
Variable key : A -> Z.
Variable cmp : A -> A -> Z.
Hypothesis cmp_key : forall a b, cmp a b = key a - key b.

Let key_le (a b : A) : Prop := key a <= key b.

Lemma Array_insert_perm (x : A) (l : list A) :
  Permutation (Array_insert cmp x l) (x :: l).
Proof.
  induction l as [|y l IH]; simpl.
  - apply Permutation_refl.
  - destruct (cmp x y <=? 0).
    + apply Permutation_refl.
    + eapply perm_trans; [apply perm_skip, IH | apply perm_swap].
Qed.

Lemma Array_sort_perm (l : list A) : Permutation (Array_sort cmp l) l.
Proof.
  induction l as [|x l IH]; simpl.
  - apply perm_nil.
  - eapply perm_trans; [apply Array_insert_perm | apply perm_skip, IH].
Qed.

Lemma Array_sort_In (l : list A) (x : A) : In x (Array_sort cmp l) <-> In x l.
Proof.
  split; apply Permutation_in.
  - apply Array_sort_perm.
  - apply Permutation_sym, Array_sort_perm.
Qed.

Lemma Array_insert_sorted (x : A) (l : list A) :
  StronglySorted key_le l -> StronglySorted key_le (Array_insert cmp x l).
Proof.
  induction 1 as [|y l Hl IH Hy]; simpl.
  - constructor; constructor.
  - destruct (Z.leb_spec (cmp x y) 0) as [Hc|Hc]; rewrite cmp_key in Hc.
    + constructor.
      * constructor; assumption.
      * constructor.
        -- unfold key_le; lia.
        -- eapply Forall_impl; [|exact Hy]. unfold key_le; intros; lia.
    + constructor; [exact IH|].
      eapply Permutation_Forall; [apply Permutation_sym, Array_insert_perm|].
      constructor; [unfold key_le; lia | exact Hy].
Qed.

Lemma Array_sort_sorted (l : list A) : StronglySorted key_le (Array_sort cmp l).
Proof.
  induction l as [|x l IH]; simpl.
  - constructor.
  - apply Array_insert_sorted, IH.
Qed.

End ArraySort.

(** A list of integers sorted ascending and free of duplicates ascends
    strictly. *)
Lemma sorted_NoDup_strict (l : list Z) :
  StronglySorted Z.le l -> NoDup l -> StronglySorted Z.lt l.
Proof.
  induction 1 as [|x l Hl IH Hx]; intros Hnd.
  - constructor.
  - inversion Hnd as [|? ? Hnotin Hnd']; subst.
    constructor; [apply IH; assumption|].
    rewrite Forall_forall in *. intros y Hy.
    specialize (Hx y Hy).
    assert (x <> y) by (intros ->; contradiction).
    lia.
Qed.

(** ** Region Normalizer *)

(** Names the innermost [Z.min] or [Z.max] of the goal and keeps its
    specification, so that [lia] works on linear facts only. *)
Ltac no_minmax t :=
  lazymatch t with
  | context [Z.min _ _] => fail
  | context [Z.max _ _] => fail
  | _ => idtac
  end.

Ltac name_minmax :=
  repeat match goal with
  | |- context [Z.min ?a ?b] =>
      no_minmax a; no_minmax b;
      let v := fresh "v" in
      pose proof (Z.min_spec a b); set (v := Z.min a b) in *; clearbody v
  | |- context [Z.max ?a ?b] =>
      no_minmax a; no_minmax b;
      let v := fresh "v" in
      pose proof (Z.max_spec a b); set (v := Z.max a b) in *; clearbody v
  end.

Lemma minItemDurationMs_is_1 (durationSeconds : Q) :
  minItemDurationMs (calculateTimelineScale durationSeconds) = 1.
Proof. reflexivity. Qed.

(** C1.  The specification promises that a normalized region never ends
    after [totalMs], and that the region [{5000, 8000}] becomes
    [{2999, 3000}] when the duration drops to 3000 ms.  The code computes
    [minEnd] from [clampedStart], not from [normalizedStart]: at that input
    the effect asks for [{2999, 3001}], one millisecond past the duration. *)
Theorem normalizer_end_past_duration :
  let region := mkZoomRegion "zoom-1" 5000 8000 in
  let safeMin := safeMinDurationMs 1 3000 in
  normalizationEffect 3000 safeMin [region] = [("zoom-1"%string, mkSpan 2999 3001)]
  /\ span_end (normalizeRegion 3000 safeMin region) > 3000.
Proof. split; reflexivity. Qed.

(** C2.  Normalizing twice is not normalizing once: the span the code gives
    for [{5000, 8000}] at 3000 ms is [{2999, 3001}], and normalizing that
    again gives [{2999, 3000}]. *)
Theorem normalizer_second_pass_differs :
  let region := mkZoomRegion "zoom-1" 5000 8000 in
  normalizeRegion 3000 1 region = mkSpan 2999 3001
  /\ normalizeRegion 3000 1 (normalizedRegion 3000 1 region) = mkSpan 2999 3000
  /\ normalizationEffect 3000 1 [normalizedRegion 3000 1 region]
     = [("zoom-1"%string, mkSpan 2999 3000)].
Proof. repeat split; reflexivity. Qed.

(** The start of a normalized region leaves room for the minimum length. *)
Lemma normalizeRegion_start_bounds (totalMs safeMin : Z) (region : ZoomRegion) :
  0 < safeMin <= totalMs ->
  0 <= span_start (normalizeRegion totalMs safeMin region) <= totalMs - safeMin.
Proof.
  intros Hmin. unfold normalizeRegion; cbn [startMs endMs span_start span_end].
  name_minmax. lia.
Qed.

(** Where the start of the region leaves room for the minimum length, the
    normalized region lies within the duration. *)
Lemma normalizeRegion_in_room (totalMs safeMin : Z) (region : ZoomRegion) :
  0 < safeMin <= totalMs ->
  startMs region <= totalMs - safeMin ->
  let s := normalizeRegion totalMs safeMin region in
  span_start s + safeMin <= span_end s <= totalMs.
Proof.
  intros Hmin Hroom. unfold normalizeRegion; cbn [startMs endMs span_start span_end].
  name_minmax. lia.
Qed.

(** The end passes the duration exactly where the start leaves no room
    for the minimum length. *)
Lemma normalizeRegion_end_past_iff (totalMs safeMin : Z) (region : ZoomRegion) :
  0 < safeMin <= totalMs ->
  (span_end (normalizeRegion totalMs safeMin region) > totalMs
   <-> startMs region > totalMs - safeMin).
Proof.
  intros Hmin. unfold normalizeRegion; cbn [startMs endMs span_start span_end].
  name_minmax. lia.
Qed.

(** A region within the duration and of at least the minimum length is
    left as it is. *)
Lemma normalizeRegion_fixed (totalMs safeMin : Z) (region : ZoomRegion) :
  0 <= safeMin ->
  0 <= startMs region ->
  startMs region + safeMin <= endMs region <= totalMs ->
  normalizeRegion totalMs safeMin region = mkSpan (startMs region) (endMs region).
Proof.
  intros Hm Hs He. unfold normalizeRegion; cbn [startMs endMs span_start span_end].
  f_equal; name_minmax; lia.
Qed.

(** Where the start leaves room for the minimum length, one pass is
    enough. *)
Lemma normalizeRegion_idempotent_in_room (totalMs safeMin : Z) (region : ZoomRegion) :
  0 < safeMin <= totalMs ->
  startMs region <= totalMs - safeMin ->
  normalizeRegion totalMs safeMin (normalizedRegion totalMs safeMin region)
  = normalizeRegion totalMs safeMin region.
Proof.
  intros Hmin Hroom.
  pose proof (normalizeRegion_start_bounds totalMs safeMin region Hmin) as Hs.
  pose proof (normalizeRegion_in_room totalMs safeMin region Hmin Hroom) as He.
  cbv zeta in He.
  unfold normalizedRegion.
  destruct (normalizeRegion totalMs safeMin region) as [s e]; simpl in *.
  apply normalizeRegion_fixed; simpl; lia.
Qed.

(** The second pass always reaches a fixed point. *)
Lemma normalizeRegion_stable_after_two (totalMs safeMin : Z) (region : ZoomRegion) :
  0 < safeMin <= totalMs ->
  let once := normalizedRegion totalMs safeMin region in
  let twice := normalizedRegion totalMs safeMin once in
  normalizeRegion totalMs safeMin twice = normalizeRegion totalMs safeMin once.
Proof.
  intros Hmin once twice.
  apply normalizeRegion_idempotent_in_room; [exact Hmin|].
  unfold once, normalizedRegion; simpl.
  apply normalizeRegion_start_bounds, Hmin.
Qed.

(** C9.  With the minimum item duration 1 and a duration of at least one
    millisecond, a normalized region has at least the minimum length and
    starts where that length still fits. *)
Theorem normalizer_min_length (region : ZoomRegion) (totalMs : Z) :
  1 <= totalMs ->
  let safeMin := safeMinDurationMs 1 totalMs in
  let s := normalizeRegion totalMs safeMin region in
  safeMin = Z.min 1 totalMs
  /\ span_end s - span_start s >= safeMin
  /\ 0 <= span_start s <= totalMs - safeMin.
Proof.
  intros Htotal. unfold safeMinDurationMs.
  destruct (Z.gtb_spec totalMs 0) as [_|Hle]; [|lia].
  unfold normalizeRegion; cbn [startMs endMs span_start span_end].
  name_minmax. lia.
Qed.

Lemma normalizer_min_length_witness :
  1 <= 3000 /\
  let safeMin := safeMinDurationMs 1 3000 in
  let s := normalizeRegion 3000 safeMin (mkZoomRegion "zoom-1" 5000 8000) in
  safeMin = Z.min 1 3000
  /\ span_end s - span_start s >= safeMin
  /\ 0 <= span_start s <= 3000 - safeMin.
Proof.
  split; [lia | apply (normalizer_min_length (mkZoomRegion "zoom-1" 5000 8000) 3000); lia].
Defined.

(** ** Overlap/Gap Detector *)

(** C7.  Against [{0, 1000}] and [{1005, 2000}] the span [{1000, 1005}] is
    accepted: it touches both regions at a boundary, and a gap of zero is
    outside the snap interval. *)
Theorem hasOverlap_boundary_touch :
  hasOverlap [mkZoomRegion "a" 0 1000; mkZoomRegion "b" 1005 2000]
    (mkSpan 1000 1005) None = false.
Proof. reflexivity. Qed.

(** ** Placement Finder *)

Lemma scanRegions_spec (d : Z) (sorted : list ZoomRegion) :
  StronglySorted (fun a b => startMs a <= startMs b) sorted ->
  forall startPos,
    let p := scanRegions d startPos sorted in
    startPos <= p
    /\ forall r, In r sorted -> p + d <= startMs r \/ endMs r <= p.
Proof.
  induction 1 as [|region rest Hrest IH Hregion]; intros startPos; simpl.
  - split; [lia | intros r []].
  - destruct (Z.leb_spec (startPos + d) (startMs region)) as [Hfit|Hno].
    + split; [lia|]. intros r [<-|Hr]; [left; lia|].
      rewrite Forall_forall in Hregion. specialize (Hregion r Hr). left; lia.
    + destruct (IH (Z.max startPos (endMs region))) as [Hp Hall].
      split; [lia|]. intros r [<-|Hr]; [right; lia | apply Hall, Hr].
Qed.

(** C3.  A span that [handleAddZoom] hands to [onZoomAdded] overlaps no
    existing region and ends within the duration. *)
Theorem handleAddZoom_placement (videoDuration : Q) (totalMs safeMin : Z)
  (zoomRegions : list ZoomRegion) (span : Span) :
  totalMs > 0 ->
  handleAddZoom videoDuration totalMs safeMin zoomRegions = ZoomAdded span ->
  (forall region, In region zoomRegions -> overlaps span region = false)
  /\ span_end span = span_start span + defaultDurationMs safeMin totalMs
  /\ span_end span <= totalMs.
Proof.
  intros _ H. unfold handleAddZoom in H.
  destruct (Qeq_bool videoDuration 0 || Qeq_bool videoDuration 0 || (totalMs =? 0));
    [discriminate|].
  set (d := defaultDurationMs safeMin totalMs) in *.
  destruct (d <=? 0); [discriminate|].
  set (sorted := Array_sort byStartMs zoomRegions) in *.
  set (p := scanRegions d 0 sorted) in *.
  destruct (Z.gtb_spec (p + d) totalMs) as [|Hfit]; [discriminate|].
  injection H as <-. simpl.
  split; [|split; [reflexivity | exact Hfit]].
  intros region Hin.
  assert (Hsorted : StronglySorted (fun a b => startMs a <= startMs b) sorted).
  { apply (Array_sort_sorted startMs byStartMs). reflexivity. }
  destruct (scanRegions_spec d sorted Hsorted 0) as [_ Hall].
  fold p in Hall.
  destruct (Hall region) as [Hb|Ha].
  - apply (Array_sort_In byStartMs), Hin.
  - unfold overlaps; simpl.
    destruct (Z.leb_spec (p + d) (startMs region)); [reflexivity | lia].
  - unfold overlaps; simpl.
    destruct (Z.geb_spec p (endMs region)); [|lia].
    rewrite orb_true_r. reflexivity.
Qed.

Lemma handleAddZoom_placement_witness :
  let zoomRegions := [mkZoomRegion "a" 0 1000; mkZoomRegion "b" 4002 5000] in
  let span := mkSpan 1000 4000 in
  10000 > 0
  /\ handleAddZoom 10 10000 1 zoomRegions = ZoomAdded span
  /\ (forall region, In region zoomRegions -> overlaps span region = false)
  /\ span_end span = span_start span + defaultDurationMs 1 10000
  /\ span_end span <= 10000.
Proof.
  split; [lia|]. split; [reflexivity|].
  apply (handleAddZoom_placement 10 10000 1); [lia | reflexivity].
Defined.

(** C10.  A placement need not pass the detector: with a duration of
    10000 ms and the regions [{0, 1000}] and [{4002, 5000}] the scan gives
    [{1000, 4000}], which [hasOverlap] rejects for its gap of 2 ms to the
    second region. *)
Theorem placement_rejected_by_detector :
  let zoomRegions := [mkZoomRegion "a" 0 1000; mkZoomRegion "b" 4002 5000] in
  let totalMs := totalMsOf 10 in
  totalMs = 10000
  /\ handleAddZoom 10 totalMs (safeMinDurationMs 1 totalMs) zoomRegions
     = ZoomAdded (mkSpan 1000 4000)
  /\ hasOverlap zoomRegions (mkSpan 1000 4000) None = true.
Proof. repeat split; reflexivity. Qed.


(** ** Scale Selector *)

Example scale_10s :
  intervalMs (calculateTimelineScale 10) = 1000
  /\ gridMs (calculateTimelineScale 10) = 250.
Proof. split; reflexivity. Qed.

Example scale_3600s : intervalMs (calculateTimelineScale 3600) = 300000.
Proof. reflexivity. Qed.

Lemma selectCandidate_cons (fits : ScaleCandidate -> bool) (a : ScaleCandidate)
  (l : list ScaleCandidate) (d : ScaleCandidate) :
  selectCandidate fits (a :: l) d
  = if fits a then a
    else match l with
         | [] => a
         | _ :: _ => selectCandidate fits l d
         end.
Proof.
  unfold selectCandidate; simpl. destruct (fits a); [reflexivity|].
  destruct l as [|b l]; [reflexivity|].
  destruct (find fits (b :: l)); [reflexivity|].
  simpl. rewrite Nat.sub_0_r. reflexivity.
Qed.

Lemma selectCandidate_In (fits : ScaleCandidate -> bool) (l : list ScaleCandidate)
  (d : ScaleCandidate) :
  l <> [] -> In (selectCandidate fits l d) l.
Proof.
  induction l as [|a l IH]; [congruence|]. intros _.
  rewrite selectCandidate_cons. destruct (fits a); [left; reflexivity|].
  destruct l as [|b l]; [left; reflexivity|].
  right. apply IH. discriminate.
Qed.

(** In a table of ascending intervals, a weaker test selects a candidate
    that is no coarser. *)
Lemma selectCandidate_le (fits1 fits2 : ScaleCandidate -> bool)
  (l : list ScaleCandidate) (d : ScaleCandidate) :
  StronglySorted interval_le l ->
  l <> [] ->
  (forall c, In c l -> fits2 c = true -> fits1 c = true) ->
  interval_le (selectCandidate fits1 l d) (selectCandidate fits2 l d).
Proof.
  induction 1 as [|a l Hl IH Ha]; [congruence|]. intros _ Himp.
  rewrite !selectCandidate_cons.
  destruct (fits1 a) eqn:E1.
  - assert (Hin : In (selectCandidate fits2 (a :: l) d) (a :: l))
      by (apply selectCandidate_In; discriminate).
    rewrite selectCandidate_cons in Hin.
    destruct Hin as [<-|Hin]; [apply Qle_refl|].
    rewrite Forall_forall in Ha. apply Ha, Hin.
  - destruct (fits2 a) eqn:E2.
    + rewrite (Himp a (or_introl eq_refl) E2) in E1. discriminate.
    + destruct l as [|b l]; [apply Qle_refl|].
      apply IH; [discriminate|]. intros c Hc. apply Himp. right; exact Hc.
Qed.

Lemma SCALE_CANDIDATES_sorted : StronglySorted interval_le SCALE_CANDIDATES.
Proof.
  unfold SCALE_CANDIDATES.
  repeat (constructor; [|repeat constructor; unfold interval_le, Qle; simpl; lia]).
  constructor.
Qed.

Lemma SCALE_CANDIDATES_positive :
  forall c, In c SCALE_CANDIDATES -> (0 < intervalSeconds c)%Q.
Proof.
  apply Forall_forall. unfold SCALE_CANDIDATES.
  repeat constructor.
Qed.

(** A candidate that keeps the marker count of a duration within the
    target keeps that of every shorter duration within it. *)
Lemma candidateFits_shorter (d1 d2 : Q) (c : ScaleCandidate) :
  (d1 < d2)%Q -> (0 < intervalSeconds c)%Q ->
  candidateFits d2 c = true -> candidateFits d1 c = true.
Proof.
  intros Hlt Hpos. unfold candidateFits.
  destruct (Qle_bool d1 0) eqn:E1; [reflexivity|].
  destruct (Qle_bool d2 0) eqn:E2.
  - apply Qle_bool_iff in E2.
    assert (d1 <= 0)%Q by lra.
    rewrite (proj2 (Qle_bool_iff d1 0)) in E1 by assumption. discriminate.
  - rewrite !Qle_bool_iff. intros H.
    eapply Qle_trans; [|exact H].
    unfold Qdiv. apply Qmult_le_compat_r; [lra|].
    apply Qinv_le_0_compat. lra.
Qed.

Lemma Math_round_le (x y : Q) : (x <= y)%Q -> Math_round x <= Math_round y.
Proof.
  intros H. unfold Math_round. apply Qfloor_resp_le. lra.
Qed.

(** C5.  A longer duration never selects a finer interval. *)
Theorem calculateTimelineScale_monotone (d1 d2 : Q) :
  (d1 < d2)%Q ->
  intervalMs (calculateTimelineScale d1) <= intervalMs (calculateTimelineScale d2).
Proof.
  intros Hlt. unfold calculateTimelineScale; cbn [intervalMs].
  apply Math_round_le.
  apply Qmult_le_compat_r; [|lra].
  apply selectCandidate_le.
  - exact SCALE_CANDIDATES_sorted.
  - discriminate.
  - intros c Hc. apply candidateFits_shorter; [exact Hlt|].
    apply SCALE_CANDIDATES_positive, Hc.
Qed.

Lemma calculateTimelineScale_monotone_witness :
  (10 < 3600)%Q /\
  intervalMs (calculateTimelineScale 10) <= intervalMs (calculateTimelineScale 3600).
Proof.
  split; [reflexivity | apply (calculateTimelineScale_monotone 10 3600); reflexivity].
Defined.

(** ** Marker Generator *)

Lemma Qltb_lt (x y : Q) : Qltb x y = true <-> (x < y)%Q.
Proof.
  unfold Qltb. rewrite negb_true_iff. split.
  - intros H. apply Qnot_le_lt. intros Hle.
    apply Qle_bool_iff in Hle. congruence.
  - intros H. destruct (Qle_bool y x) eqn:E; [|reflexivity].
    apply Qle_bool_iff in E. lra.
Qed.

Lemma Qle_bool_false (x y : Q) : Qle_bool x y = false <-> (y < x)%Q.
Proof.
  rewrite <- Qltb_lt. unfold Qltb. rewrite negb_true_iff. reflexivity.
Qed.

Lemma Set_add_In (x y : Z) (s : list Z) : In y (Set_add x s) <-> y = x \/ In y s.
Proof.
  unfold Set_add. destruct (existsb (Z.eqb x) s) eqn:E.
  - split; [right; assumption|]. intros [->|H]; [|exact H].
    apply existsb_exists in E. destruct E as [z [Hz Hxz]].
    apply Z.eqb_eq in Hxz. subst z. exact Hz.
  - rewrite in_app_iff; simpl. intuition congruence.
Qed.

Lemma Set_add_NoDup (x : Z) (s : list Z) : NoDup s -> NoDup (Set_add x s).
Proof.
  intros Hnd. unfold Set_add. destruct (existsb (Z.eqb x) s) eqn:E; [exact Hnd|].
  apply NoDup_app; [exact Hnd | repeat constructor; intros [] |].
  intros y Hy [Heq|[]]. rewrite <- Heq in Hy.
  assert (existsb (Z.eqb x) s = true)
    by (apply existsb_exists; exists x; split; [exact Hy | apply Z.eqb_refl]).
  congruence.
Qed.

Section MarkerLoop.

Variables intervalMs visibleStart visibleEnd maxTime : Q.
Hypothesis interval_pos : (0 < intervalMs)%Q.

(** The loop ends within [fuel] iterations once [fuel] steps lead past
    [maxTime]. *)
Lemma markerLoop_returns (fuel : nat) :
  forall (time : Q) (acc : list Z),
    (maxTime < time + inject_Z (Z.of_nat fuel) * intervalMs)%Q ->
    exists l, markerLoop fuel intervalMs visibleStart visibleEnd maxTime time acc
              = Returned l.
Proof.
  induction fuel as [|fuel IH]; intros time acc Hpast.
  - simpl markerLoop. destruct (Qle_bool time maxTime) eqn:E.
    + apply Qle_bool_iff in E.
      change (inject_Z (Z.of_nat 0)) with 0%Q in Hpast. lra.
    + eexists; reflexivity.
  - simpl markerLoop. destruct (Qle_bool time maxTime) eqn:E.
    + apply IH. rewrite Nat2Z.inj_succ in Hpast. unfold Z.succ in Hpast.
      rewrite inject_Z_plus in Hpast.
      change (inject_Z 1) with 1%Q in Hpast. lra.
    + eexists; reflexivity.
Qed.

(** What the loop adds is a rounded time of the window, and it adds
    nothing twice. *)
Lemma markerLoop_inv (fuel : nat) :
  forall (time : Q) (acc l : list Z),
    markerLoop fuel intervalMs visibleStart visibleEnd maxTime time acc = Returned l ->
    NoDup acc ->
    NoDup l /\ forall t, In t l -> In t acc \/ windowTime visibleStart visibleEnd t.
Proof.
  induction fuel as [|fuel IH]; intros time acc l Hrun Hnd; simpl in Hrun.
  - destruct (Qle_bool time maxTime); [discriminate|].
    injection Hrun as <-. split; [exact Hnd | intros t Ht; left; exact Ht].
  - destruct (Qle_bool time maxTime); [|injection Hrun as <-; split; auto].
    destruct (Qle_bool visibleStart time && Qle_bool time visibleEnd) eqn:Ewin.
    + apply IH in Hrun; [|apply Set_add_NoDup, Hnd].
      destruct Hrun as [Hl Hin]. split; [exact Hl|].
      intros t Ht. destruct (Hin t Ht) as [Hacc|Hw]; [|right; exact Hw].
      apply Set_add_In in Hacc. destruct Hacc as [->|Hacc]; [|left; exact Hacc].
      right. apply andb_true_iff in Ewin. destruct Ewin as [E1 E2].
      apply Qle_bool_iff in E1, E2. exists time. auto.
    + apply IH in Hrun; assumption.
Qed.

Lemma markerFuel_enough (firstMarker : Q) :
  (maxTime
   < firstMarker + inject_Z (Z.of_nat (markerFuel intervalMs maxTime firstMarker))
                   * intervalMs)%Q.
Proof.
  unfold markerFuel.
  set (q := ((maxTime - firstMarker) / intervalMs)%Q).
  assert (Hq : (q < inject_Z (Qfloor q + 1))%Q).
  { apply Qlt_floor. }
  assert (Hfuel : (inject_Z (Qfloor q + 1)
                   <= inject_Z (Z.of_nat (Z.to_nat (Qfloor q + 1))))%Q).
  { rewrite <- Zle_Qle. lia. }
  assert (Heq : (q * intervalMs == maxTime - firstMarker)%Q).
  { unfold q. field. lra. }
  assert (Hlt : (q * intervalMs
                 < inject_Z (Z.of_nat (Z.to_nat (Qfloor q + 1))) * intervalMs)%Q).
  { apply Qmult_lt_compat_r; [exact interval_pos | lra]. }
  lra.
Qed.

End MarkerLoop.

(** C8.  With an interval of zero or less the memo returns the empty list;
    the quotient by [intervalMs], which is not finite for an interval of
    zero, is never computed. *)
Theorem markers_interval_not_positive (tieUp : Z -> bool) (intervalMs : Q)
  (range : Range) (videoDurationMs : Q) :
  (intervalMs <= 0)%Q ->
  markers tieUp intervalMs range videoDurationMs = Returned [].
Proof.
  intros H. unfold markers.
  rewrite (proj2 (Qle_bool_iff intervalMs 0) H). reflexivity.
Qed.

Lemma markers_interval_not_positive_witness :
  (0 <= 0)%Q /\
  markers (fun _ => true) 0 (mkRange 0 5000) 10000 = Returned []
  /\ Number_div (axisVisibleStart 10000 (mkRange 0 5000)) 0 = NonFinite.
Proof.
  split; [apply Qle_refl|]. split; [|reflexivity].
  apply (markers_interval_not_positive (fun _ => true) 0 (mkRange 0 5000) 10000).
  apply Qle_refl.
Defined.

Lemma axisVisibleStart_le_maxTime (videoDurationMs : Q) (range : Range) :
  (0 < videoDurationMs)%Q ->
  (axisVisibleStart videoDurationMs range <= videoDurationMs)%Q.
Proof.
  intros Hpos. unfold axisVisibleStart, axisMaxTime.
  rewrite (proj2 (Qltb_lt 0 videoDurationMs) Hpos).
  apply Q.max_lub; [lra | apply Q.le_min_r].
Qed.

(** For a range that starts before it ends and ends at zero or later, the
    window is not empty. *)
Lemma axisVisibleStart_le_End (videoDurationMs : Q) (range : Range) :
  (range_start range <= range_end range)%Q ->
  (0 <= range_end range)%Q ->
  (axisVisibleStart videoDurationMs range <= axisVisibleEnd videoDurationMs range)%Q.
Proof.
  intros Hse He. unfold axisVisibleStart, axisVisibleEnd.
  set (m := axisMaxTime videoDurationMs range).
  assert (Hm : (0 <= m)%Q).
  { unfold m, axisMaxTime. destruct (Qltb 0 videoDurationMs) eqn:E; [|exact He].
    apply Qltb_lt in E. lra. }
  apply Q.max_lub.
  - apply Q.min_glb; assumption.
  - apply Q.min_glb; [|apply Q.le_min_r].
    eapply Qle_trans; [apply Q.le_min_l | exact Hse].
Qed.

Lemma map_time_mkMarker (f : Z -> string) (l : list Z) :
  map time (map (fun t => mkMarker t (f t)) l) = l.
Proof.
  rewrite map_map. simpl. apply map_id.
Qed.

(** C4, as the code has it.  For a positive interval the memo returns a
    list of markers whose times ascend strictly, so without duplicates.
    Every time is at most [maxTime] and at least the rounded
    [visibleStart]; it is a rounded time of the visible window, the
    rounded [visibleStart], or the rounded end of the video, which is
    emitted also when the window ends before it.  The label of a marker is
    the formatted time. *)
Theorem markers_ascending_bounded (tieUp : Z -> bool) (intervalMs : Q)
  (range : Range) (videoDurationMs : Q) :
  (0 < intervalMs)%Q ->
  let maxTime := axisMaxTime videoDurationMs range in
  let visibleStart := axisVisibleStart videoDurationMs range in
  let visibleEnd := axisVisibleEnd videoDurationMs range in
  exists ms : list Marker,
    markers tieUp intervalMs range videoDurationMs = Returned ms
    /\ StronglySorted Z.lt (map time ms)
    /\ NoDup (map time ms)
    /\ (forall t, In t (map time ms) ->
          Math_round visibleStart <= t /\ (inject_Z t <= maxTime)%Q)
    /\ (forall t, In t (map time ms) ->
          windowTime visibleStart visibleEnd t
          \/ ((visibleStart <= maxTime)%Q /\ t = Math_round visibleStart)
          \/ ((0 < videoDurationMs)%Q /\ t = Math_round videoDurationMs))
    /\ (forall m, In m ms -> label m = formatTimeLabel tieUp (time m) intervalMs).
Proof.
  intros Hpos maxTime visibleStart visibleEnd. unfold markers.
  rewrite (proj2 (Qle_bool_false intervalMs 0) Hpos).
  fold maxTime visibleStart visibleEnd.
  unfold Number_div.
  destruct (Qeq_bool intervalMs 0) eqn:Ez.
  { apply Qeq_bool_iff in Ez. lra. }
  cbn [bind].
  set (firstMarker := (inject_Z (Math_ceil (visibleStart / intervalMs)) * intervalMs)%Q).
  destruct (markerLoop_returns intervalMs visibleStart visibleEnd maxTime
              (markerFuel intervalMs maxTime firstMarker) firstMarker [])
    as [l Hl].
  { apply markerFuel_enough, Hpos. }
  rewrite Hl. cbn [bind].
  destruct (markerLoop_inv intervalMs visibleStart visibleEnd maxTime _ _ _ _ Hl
              (NoDup_nil Z)) as [Hnd Hin].
  set (l1 := if Qle_bool visibleStart maxTime
             then Set_add (Math_round visibleStart) l else l).
  set (l2 := if Qltb 0 videoDurationMs
             then Set_add (Math_round videoDurationMs) l1 else l1).
  set (kept := filter (fun t => Qle_bool (inject_Z t) maxTime) l2).
  set (sorted := Array_sort (fun a b => a - b) kept).
  assert (Hnd1 : NoDup l1).
  { unfold l1. destruct (Qle_bool visibleStart maxTime);
      [apply Set_add_NoDup|]; exact Hnd. }
  assert (Hnd2 : NoDup l2).
  { unfold l2. destruct (Qltb 0 videoDurationMs);
      [apply Set_add_NoDup|]; exact Hnd1. }
  assert (Hin1 : forall t, In t l1 ->
            windowTime visibleStart visibleEnd t
            \/ ((visibleStart <= maxTime)%Q /\ t = Math_round visibleStart)).
  { intros t. unfold l1. destruct (Qle_bool visibleStart maxTime) eqn:E.
    - rewrite Set_add_In. apply Qle_bool_iff in E. intros [->|Ht]; [right; auto|].
      left. destruct (Hin t Ht) as [[]|Hw]; exact Hw.
    - intros Ht. left. destruct (Hin t Ht) as [[]|Hw]; exact Hw. }
  assert (Hin2 : forall t, In t l2 ->
            windowTime visibleStart visibleEnd t
            \/ ((visibleStart <= maxTime)%Q /\ t = Math_round visibleStart)
            \/ ((0 < videoDurationMs)%Q /\ t = Math_round videoDurationMs)).
  { intros t. unfold l2. destruct (Qltb 0 videoDurationMs) eqn:E.
    - rewrite Set_add_In. apply Qltb_lt in E. intros [->|Ht]; [right; right; auto|].
      destruct (Hin1 t Ht); auto.
    - intros Ht. destruct (Hin1 t Ht); auto. }
  assert (Hsorted_in : forall t, In t sorted ->
            In t l2 /\ (inject_Z t <= maxTime)%Q).
  { intros t Ht. apply (proj1 (Array_sort_In (fun a b => a - b) kept t)) in Ht.
    apply filter_In in Ht. destruct Ht as [Ht Hle].
    apply Qle_bool_iff in Hle. auto. }
  assert (Hnds : NoDup sorted).
  { eapply Permutation_NoDup;
      [apply Permutation_sym, Array_sort_perm | apply NoDup_filter, Hnd2]. }
  exists (map (fun t => mkMarker t (formatTimeLabel tieUp t intervalMs)) sorted).
  rewrite map_time_mkMarker.
  split; [reflexivity|].
  split.
  { apply sorted_NoDup_strict; [|exact Hnds].
    apply (Array_sort_sorted (fun t : Z => t) (fun a b => a - b)). reflexivity. }
  split; [exact Hnds|].
  split.
  { intros t Ht. destruct (Hsorted_in t Ht) as [Ht2 Hle]. split; [|exact Hle].
    destruct (Hin2 t Ht2) as [[x [Hx1 [Hx2 ->]]]|[[_ ->]|[Hv ->]]].
    - apply Math_round_le, Hx1.
    - apply Z.le_refl.
    - apply Math_round_le. apply axisVisibleStart_le_maxTime, Hv. }
  split.
  { intros t Ht. apply Hin2, Hsorted_in, Ht. }
  intros m Hm. apply in_map_iff in Hm. destruct Hm as [t [<- _]]. reflexivity.
Qed.

Lemma markers_ascending_bounded_witness :
  (0 < 1000)%Q /\
  exists ms : list Marker,
    markers (fun _ => true) 1000 (mkRange 0 5000) 10000 = Returned ms
    /\ StronglySorted Z.lt (map time ms)
    /\ NoDup (map time ms)
    /\ (forall t, In t (map time ms) ->
          Math_round (axisVisibleStart 10000 (mkRange 0 5000)) <= t
          /\ (inject_Z t <= axisMaxTime 10000 (mkRange 0 5000))%Q)
    /\ (forall t, In t (map time ms) ->
          windowTime (axisVisibleStart 10000 (mkRange 0 5000))
            (axisVisibleEnd 10000 (mkRange 0 5000)) t
          \/ ((axisVisibleStart 10000 (mkRange 0 5000)
               <= axisMaxTime 10000 (mkRange 0 5000))%Q
              /\ t = Math_round (axisVisibleStart 10000 (mkRange 0 5000)))
          \/ ((0 < 10000)%Q /\ t = Math_round 10000))
    /\ (forall m, In m ms -> label m = formatTimeLabel (fun _ => true) (time m) 1000).
Proof.
  split; [reflexivity|].
  apply (markers_ascending_bounded (fun _ => true) 1000 (mkRange 0 5000) 10000).
  reflexivity.
Defined.

(** The claim as the specification states it fails: with the window
    [0, 5000] of a video of 10000 ms the memo emits the end of the video,
    10000, which lies after [min(range.end, maxTime) = 5000]. *)
Lemma markers_video_end_outside_window :
  let range := mkRange 0 5000 in
  (0 < 1000)%Q /\
  markers (fun _ => true) 1000 range 10000
  = Returned [mkMarker 0 "0:00"; mkMarker 1000 "0:01"; mkMarker 2000 "0:02";
              mkMarker 3000 "0:03"; mkMarker 4000 "0:04"; mkMarker 5000 "0:05";
              mkMarker 10000 "0:10"]
  /\ ~ (inject_Z 10000 <= Qmin (range_end range) (axisMaxTime 10000 range))%Q.
Proof.
  split; [reflexivity|]. split; [reflexivity|].
  intros H. vm_compute in H. apply H. reflexivity.
Qed.

(** ** Label Formatter *)

(** *** From rationals to integer milliseconds *)

Lemma Qfloor_div (a b : Z) : Qfloor (inject_Z a / inject_Z b) = a / b.
Proof. symmetry. apply Zdiv_Qdiv. Qed.

Lemma inject_Z_pos (k : Z) : 0 < k -> (0 < inject_Z k)%Q.
Proof. intros H. change 0%Q with (inject_Z 0). rewrite <- Zlt_Qlt. exact H. Qed.

Lemma inject_Z_nonneg (k : Z) : 0 <= k -> (0 <= inject_Z k)%Q.
Proof. intros H. change 0%Q with (inject_Z 0). rewrite <- Zle_Qle. exact H. Qed.

(** [(a / k) % d] for a count [a >= 0] of [k]-ths. *)
Lemma Q_rem_nonneg (a k d : Z) :
  0 <= a -> 0 < k -> 0 < d ->
  (Q_rem (inject_Z a / inject_Z k) (inject_Z d)
   == inject_Z (a mod (k * d)) / inject_Z k)%Q.
Proof.
  intros Ha Hk Hd.
  pose proof (inject_Z_pos k Hk) as Hk'. pose proof (inject_Z_pos d Hd) as Hd'.
  pose proof (inject_Z_nonneg a Ha) as Ha'.
  assert (Hq : (inject_Z a / inject_Z k / inject_Z d
                == inject_Z a / inject_Z (k * d))%Q).
  { rewrite inject_Z_mult. field. split; lra. }
  unfold Q_rem.
  assert (Hnn : (0 <= inject_Z a / inject_Z k / inject_Z d)%Q).
  { apply Qle_shift_div_l; [exact Hd'|]. apply Qle_shift_div_l; [exact Hk'|]. lra. }
  rewrite (proj2 (Qle_bool_iff _ _) Hnn).
  rewrite (Qfloor_comp _ _ Hq), Qfloor_div.
  rewrite Z.mod_eq by lia.
  unfold Zminus. rewrite inject_Z_plus, inject_Z_opp, !inject_Z_mult.
  field. lra.
Qed.

Section LabelArithmetic.

Variable milliseconds : Z.
Hypothesis ms_nonneg : 0 <= milliseconds.

Let totalSeconds : Q := (inject_Z milliseconds / 1000)%Q.

Lemma label_hours : Math_floor (totalSeconds / 3600) = milliseconds / 3600000.
Proof.
  unfold Math_floor, totalSeconds.
  rewrite <- (Qfloor_div milliseconds 3600000). apply Qfloor_comp.
  change (inject_Z 3600000) with 3600000%Q. field.
Qed.

Lemma label_rem_3600 :
  (Q_rem totalSeconds 3600 == inject_Z (milliseconds mod 3600000) / 1000)%Q.
Proof.
  apply (Q_rem_nonneg milliseconds 1000 3600); lia.
Qed.

Lemma label_seconds :
  (Q_rem totalSeconds 60 == inject_Z (milliseconds mod 60000) / 1000)%Q.
Proof.
  apply (Q_rem_nonneg milliseconds 1000 60); lia.
Qed.

Lemma label_minutes :
  Math_floor (Q_rem totalSeconds 3600 / 60) = milliseconds mod 3600000 / 60000.
Proof.
  unfold Math_floor.
  rewrite <- (Qfloor_div (milliseconds mod 3600000) 60000). apply Qfloor_comp.
  rewrite label_rem_3600. change (inject_Z 60000) with 60000%Q. field.
Qed.

Lemma label_whole_seconds :
  Math_floor (Q_rem totalSeconds 60) = milliseconds mod 60000 / 1000.
Proof.
  unfold Math_floor.
  rewrite <- (Qfloor_div (milliseconds mod 60000) 1000). apply Qfloor_comp.
  apply label_seconds.
Qed.

End LabelArithmetic.

(** *** Rounding of [toFixed] on a millisecond count *)

Lemma half_of_unit (r u : Z) :
  0 < u ->
  ((inject_Z r / inject_Z u < 1 # 2)%Q <-> 2 * r < u)
  /\ ((1 # 2 < inject_Z r / inject_Z u)%Q <-> u < 2 * r).
Proof.
  intros Hu. pose proof (inject_Z_pos u Hu) as Hu'.
  assert (Hlt : 2 * r < u -> (inject_Z r / inject_Z u < 1 # 2)%Q).
  { intros H. apply Qlt_shift_div_r; [exact Hu'|].
    rewrite Zlt_Qlt, inject_Z_mult in H.
    change (inject_Z 2) with 2%Q in H. lra. }
  assert (Hgt : u < 2 * r -> (1 # 2 < inject_Z r / inject_Z u)%Q).
  { intros H. apply Qlt_shift_div_l; [exact Hu'|].
    rewrite Zlt_Qlt, inject_Z_mult in H.
    change (inject_Z 2) with 2%Q in H. lra. }
  assert (Heq : 2 * r = u -> (inject_Z r / inject_Z u == 1 # 2)%Q).
  { intros H. rewrite <- H. rewrite inject_Z_mult.
    change (inject_Z 2) with 2%Q. field.
    intros Hr. rewrite <- H, inject_Z_mult in Hu'.
    change (inject_Z 2) with 2%Q in Hu'. lra. }
  split; split; auto; intros H.
  - destruct (Z.lt_trichotomy (2 * r) u) as [?|[E|G]]; [assumption| |].
    + apply Heq in E. lra.
    + apply Hgt in G. lra.
  - destruct (Z.lt_trichotomy (2 * r) u) as [L|[E|?]]; [| |assumption].
    + apply Hlt in L. lra.
    + apply Heq in E. lra.
Qed.

Lemma toFixedInteger_units (tieUp : bool) (x : Q) (ms unit : Z) (f : nat) :
  0 <= ms -> 0 < unit -> 10 ^ Z.of_nat f * unit = 1000 ->
  (x == inject_Z ms / 1000)%Q ->
  toFixedInteger tieUp (Qabs x) f = roundedUnits tieUp ms unit.
Proof.
  intros Hms Hu Hf Hx.
  pose proof (inject_Z_pos unit Hu) as Hu'.
  pose proof (inject_Z_nonneg ms Hms) as Hms'.
  assert (Hscaled : (Qabs x * inject_Z (10 ^ Z.of_nat f)
                     == inject_Z ms / inject_Z unit)%Q).
  { rewrite Qabs_pos.
    - rewrite Hx. change 1000%Q with (inject_Z 1000).
      rewrite <- Hf, inject_Z_mult. field.
      split; [lra|]. intros H0.
      assert (H1 : (inject_Z (10 ^ Z.of_nat f * unit) == 0)%Q)
        by (rewrite inject_Z_mult, H0; ring).
      rewrite Hf in H1. discriminate H1.
    - rewrite Hx. apply Qle_shift_div_l; lra. }
  unfold toFixedInteger, roundedUnits.
  rewrite (Qfloor_comp _ _ Hscaled), Qfloor_div.
  assert (Hrest : (Qabs x * inject_Z (10 ^ Z.of_nat f) - inject_Z (ms / unit)
                   == inject_Z (ms mod unit) / inject_Z unit)%Q).
  { rewrite Hscaled, Z.mod_eq by lia.
    unfold Zminus. rewrite inject_Z_plus, inject_Z_opp, inject_Z_mult.
    field. lra. }
  destruct (half_of_unit (ms mod unit) unit Hu) as [Hlo Hhi].
  destruct (Qltb _ (1 # 2)) eqn:E1.
  - apply Qltb_lt in E1. rewrite Hrest in E1. apply Hlo in E1.
    rewrite (proj2 (Z.ltb_lt _ _) E1). reflexivity.
  - assert (N1 : ~ 2 * (ms mod unit) < unit).
    { intros H. apply Hlo in H. rewrite <- Hrest in H. apply Qltb_lt in H.
      congruence. }
    rewrite (proj2 (Z.ltb_ge _ _)) by lia.
    destruct (Qltb (1 # 2) _) eqn:E2.
    + apply Qltb_lt in E2. rewrite Hrest in E2. apply Hhi in E2.
      rewrite (proj2 (Z.ltb_lt _ _) E2). reflexivity.
    + assert (N2 : ~ unit < 2 * (ms mod unit)).
      { intros H. apply Hhi in H. rewrite <- Hrest in H. apply Qltb_lt in H.
        congruence. }
      rewrite (proj2 (Z.ltb_ge _ _)) by lia. reflexivity.
Qed.

(** Rounding the part of [ms] within its minute, and adding the minutes
    back, is rounding [ms]. *)
Lemma roundedUnits_minute (tieUp : bool) (ms unit perMinute : Z) :
  0 < unit -> perMinute * unit = 60000 ->
  (ms / 60000) * perMinute + roundedUnits tieUp (ms mod 60000) unit
  = roundedUnits tieUp ms unit.
Proof.
  intros Hu Hper. unfold roundedUnits.
  assert (Hmod : (ms mod 60000) mod unit = ms mod unit).
  { rewrite <- Hper, (Z.mul_comm perMinute unit), Z.rem_mul_r by lia.
    rewrite (Z.mul_comm unit), Z.mod_add by lia. apply Z.mod_mod. lia. }
  assert (Hdiv : ms / 60000 * perMinute + ms mod 60000 / unit = ms / unit).
  { pose proof (Z.div_mod ms 60000 ltac:(lia)) as H1.
    pose proof (Z.div_mod (ms mod 60000) unit ltac:(lia)) as H2.
    rewrite Hmod in H2.
    apply Z.div_unique with (r := ms mod unit);
      [left; apply Z.mod_pos_bound; lia|].
    set (A := ms / 60000) in *. set (B := ms mod 60000) in *.
    set (C := B / unit) in *. set (D := ms mod unit) in *.
    rewrite H1 at 1. rewrite H2 at 1. rewrite <- Hper. ring. }
  rewrite Hmod.
  destruct (2 * (ms mod unit) <? unit); [exact Hdiv|].
  destruct (unit <? 2 * (ms mod unit)); [lia|].
  destruct tieUp; lia.
Qed.

(** Rounding to the nearest unit is monotone, whatever the ties do. *)
Lemma roundedUnits_le (tie1 tie2 : bool) (ms1 ms2 unit : Z) :
  0 < unit -> ms1 < ms2 ->
  roundedUnits tie1 ms1 unit <= roundedUnits tie2 ms2 unit.
Proof.
  intros Hu Hlt.
  assert (Hlo : forall t m, m / unit <= roundedUnits t m unit <= m / unit + 1).
  { intros t m. unfold roundedUnits.
    destruct (_ <? _); [lia|]. destruct (_ <? _); [lia|]. destruct t; lia. }
  destruct (Z.eq_dec (ms1 / unit) (ms2 / unit)) as [E|N].
  - assert (Hr : ms1 mod unit < ms2 mod unit).
    { rewrite !Z.mod_eq by lia. rewrite E. lia. }
    unfold roundedUnits. rewrite E.
    destruct (Z.ltb_spec (2 * (ms1 mod unit)) unit).
    + destruct (_ <? _); [lia|]. destruct (_ <? _); [lia|]. destruct tie2; lia.
    + rewrite (proj2 (Z.ltb_ge (2 * (ms2 mod unit)) unit)) by lia.
      rewrite (proj2 (Z.ltb_lt unit (2 * (ms2 mod unit)))) by lia.
      destruct (_ <? _); [lia|]. destruct tie1; lia.
  - assert (ms1 / unit <= ms2 / unit) by (apply Z.div_le_mono; lia).
    pose proof (Hlo tie1 ms1). pose proof (Hlo tie2 ms2). lia.
Qed.

(** *** Strings of digits *)

Lemma String_split_none (c : ascii) (s : string) :
  noChar c s = true -> String_split c s = [s].
Proof.
  induction s as [|a s IH]; simpl; [reflexivity|].
  destruct (Ascii.eqb a c); simpl; [discriminate|].
  intros H. rewrite (IH H). reflexivity.
Qed.

Lemma String_split_app (c : ascii) (a b : string) :
  noChar c a = true ->
  String_split c (a ++ String c b) = a :: String_split c b.
Proof.
  induction a as [|x a IH]; simpl.
  - intros _. rewrite Ascii.eqb_refl. reflexivity.
  - destruct (Ascii.eqb x c); simpl; [discriminate|].
    intros H. rewrite (IH H). reflexivity.
Qed.

Lemma noColon_uint (d : Decimal.uint) :
  noChar ":" (NilEmpty.string_of_uint d) = true.
Proof. induction d; simpl; try assumption; reflexivity. Qed.

Lemma Number_toString_pos (p : positive) :
  Number_toString (Z.pos p) = NilEmpty.string_of_uint (Pos.to_uint p).
Proof.
  unfold Number_toString; simpl. unfold NilZero.string_of_uint.
  destruct (Pos.to_uint p) eqn:E; try reflexivity.
  exfalso. exact (DecimalPos.Unsigned.to_uint_nonnil p E).
Qed.

Lemma parseDigits_pos (p : positive) :
  parseDigits (Number_toString (Z.pos p)) = Some (N.pos p).
Proof.
  rewrite Number_toString_pos. unfold parseDigits.
  destruct (NilEmpty.string_of_uint (Pos.to_uint p)) eqn:E.
  - exfalso. apply (DecimalPos.Unsigned.to_uint_nonnil p).
    destruct (Pos.to_uint p); simpl in E; try discriminate. reflexivity.
  - rewrite <- E, NilEmpty.usu. simpl. f_equal.
    exact (DecimalN.Unsigned.of_to (N.pos p)).
Qed.

(** *** Fields of a label, by enumeration *)

Lemma upTo_In (n k : Z) : 0 <= k < n -> In k (upTo n).
Proof.
  intros H. unfold upTo. apply in_map_iff. exists (Z.to_nat k).
  split; [lia | apply in_seq; lia].
Qed.

Lemma minuteField_table : forallb minuteFieldOK (upTo 60) = true.
Proof. vm_compute. reflexivity. Qed.

Lemma twoDigitField_table : forallb twoDigitFieldOK (upTo 60) = true.
Proof. vm_compute. reflexivity. Qed.

Lemma fractionField_table_1 : forallb (fractionFieldOK 1) (upTo 601) = true.
Proof. vm_compute. reflexivity. Qed.

Lemma fractionField_table_2 : forallb (fractionFieldOK 2) (upTo 6001) = true.
Proof. vm_compute. reflexivity. Qed.

Lemma minuteField_ok (n : Z) :
  0 <= n < 60 ->
  noChar ":" (Number_toString n) = true
  /\ parseDigits (Number_toString n) = Some (Z.to_N n).
Proof.
  intros H.
  pose proof (proj1 (forallb_forall _ _) minuteField_table n (upTo_In 60 n H)) as T.
  unfold minuteFieldOK in T. apply andb_true_iff in T. destruct T as [T1 T2].
  split; [exact T1|].
  destruct (parseDigits (Number_toString n)) as [m|]; [|discriminate].
  apply Z.eqb_eq in T2. subst n. rewrite N2Z.id. reflexivity.
Qed.

Lemma twoDigitField_ok (n : Z) :
  0 <= n < 60 ->
  let field := padStart 2 "0" (Number_toString n) in
  noChar ":" field = true /\ noChar "." field = true
  /\ parseDigits field = Some (Z.to_N n).
Proof.
  intros H.
  pose proof (proj1 (forallb_forall _ _) twoDigitField_table n (upTo_In 60 n H)) as T.
  unfold twoDigitFieldOK in T.
  apply andb_true_iff in T. destruct T as [T T3].
  apply andb_true_iff in T. destruct T as [T1 T2].
  cbv zeta. split; [exact T1|]. split; [exact T2|].
  destruct (parseDigits _) as [m|]; [|discriminate].
  apply Z.eqb_eq in T3. subst n. rewrite N2Z.id. reflexivity.
Qed.

Lemma secondsOfField_twoDigit (n : Z) :
  0 <= n < 60 ->
  secondsOfField (padStart 2 "0" (Number_toString n)) = Some (inject_Z n).
Proof.
  intros H. destruct (twoDigitField_ok n H) as [_ [Hdot Hparse]].
  unfold secondsOfField. rewrite (String_split_none _ _ Hdot), Hparse.
  simpl. rewrite Z2N.id by lia. reflexivity.
Qed.

(** The seconds field made from [toFixed]: the label with its minutes in
    front reads as the minutes and [n / 10^f] seconds. *)
Lemma fractionField_ok (f : nat) (n : Z) (minutes : string) :
  (f = 1%nat /\ 0 <= n <= 600) \/ (f = 2%nat /\ 0 <= n <= 6000) ->
  exists (field : string) (q : Q),
    match String_split "." (toFixedDigits n f) with
    | wholeSeconds :: fraction :: _ =>
        (minutes ++ ":" ++ padStart 2 "0" wholeSeconds ++ "." ++ fraction)%string
    | wholeSeconds :: [] =>
        (minutes ++ ":" ++ padStart 2 "0" wholeSeconds ++ "." ++ "undefined")%string
    | [] => EmptyString
    end = (minutes ++ String ":" field)%string
    /\ noChar ":" field = true
    /\ secondsOfField field = Some q
    /\ (q == inject_Z n / inject_Z (10 ^ Z.of_nat f))%Q.
Proof.
  intros H.
  assert (T : fractionFieldOK f n = true).
  { destruct H as [[-> H]|[-> H]].
    - apply (proj1 (forallb_forall _ _) fractionField_table_1), upTo_In. lia.
    - apply (proj1 (forallb_forall _ _) fractionField_table_2), upTo_In. lia. }
  unfold fractionFieldOK in T.
  destruct (String_split "." (toFixedDigits n f)) as [|w [|fr rest]];
    try discriminate.
  apply andb_true_iff in T. destruct T as [T1 T2].
  destruct (secondsOfField (padStart 2 "0" w ++ "." ++ fr)) as [q|] eqn:E;
    [|discriminate].
  exists (padStart 2 "0" w ++ "." ++ fr)%string, q.
  split; [reflexivity|]. split; [exact T1|]. split; [exact E|].
  apply Qeq_bool_iff, T2.
Qed.

(** *** The time a label shows *)

Lemma toFixed_seconds (tieUp : bool) (ms unit : Z) (f : nat) :
  0 <= ms -> 0 < unit -> 10 ^ Z.of_nat f * unit = 1000 ->
  toFixed tieUp (Q_rem (inject_Z ms / 1000) 60) f
  = toFixedDigits (roundedUnits tieUp (ms mod 60000) unit) f.
Proof.
  intros Hms Hu Hf. unfold toFixed.
  pose proof (label_seconds ms Hms) as Hs.
  pose proof (Z.mod_pos_bound ms 60000 ltac:(lia)) as Hb.
  assert (Hnn : (0 <= Q_rem (inject_Z ms / 1000) 60)%Q).
  { rewrite Hs. apply Qle_shift_div_l; [lra|].
    pose proof (inject_Z_nonneg (ms mod 60000) ltac:(lia)). lra. }
  destruct (Qltb _ 0) eqn:E; [apply Qltb_lt in E; lra|].
  rewrite (toFixedInteger_units tieUp _ (ms mod 60000) unit f); auto; lia.
Qed.

Lemma Qeq_inject_Z (a b : Z) : a = b -> (inject_Z a == inject_Z b)%Q.
Proof. intros ->. reflexivity. Qed.

(** A label of a time of zero or more reads as [labelTime]. *)
Lemma labelSeconds_formatTimeLabel (tieUp : Z -> bool) (ms : Z) (intervalMs : Q) :
  0 <= ms ->
  exists t : Q,
    labelSeconds (formatTimeLabel tieUp ms intervalMs) = Some t
    /\ (t == labelTime tieUp ms intervalMs)%Q.
Proof.
  intros Hms. unfold formatTimeLabel, labelTime.
  rewrite (label_hours ms), (label_minutes ms Hms), (label_whole_seconds ms Hms).
  change (if Qltb intervalMs 250 then 2%nat
          else if Qltb intervalMs 1000 then 1%nat else 0%nat)
    with (fractionalDigitsOf intervalMs).
  set (f := fractionalDigitsOf intervalMs).
  assert (Hf : f = 0%nat \/ f = 1%nat \/ f = 2%nat).
  { unfold f, fractionalDigitsOf.
    destruct (Qltb intervalMs 250); [|destruct (Qltb intervalMs 1000)]; auto. }
  pose proof (Z.div_mod ms 3600000 ltac:(lia)) as D1.
  pose proof (Z.mod_pos_bound ms 3600000 ltac:(lia)) as B1.
  pose proof (Z.div_mod (ms mod 3600000) 60000 ltac:(lia)) as D2.
  pose proof (Z.mod_pos_bound (ms mod 3600000) 60000 ltac:(lia)) as B2.
  pose proof (Z.div_mod ms 60000 ltac:(lia)) as D3.
  pose proof (Z.mod_pos_bound ms 60000 ltac:(lia)) as B3.
  pose proof (Z.div_mod (ms mod 60000) 1000 ltac:(lia)) as D4.
  pose proof (Z.mod_pos_bound (ms mod 60000) 1000 ltac:(lia)) as B4.
  pose proof (Z.div_mod ms 1000 ltac:(lia)) as D5.
  pose proof (Z.mod_pos_bound ms 1000 ltac:(lia)) as B5.
  set (h := ms / 3600000) in *.
  set (m := ms mod 3600000 / 60000) in *.
  set (s := ms mod 60000 / 1000) in *.
  assert (Hh : 0 <= h) by (apply Z.div_pos; lia).
  assert (Hm : 0 <= m < 60) by lia.
  assert (Hs : 0 <= s < 60) by lia.
  assert (Hwhole : h * 3600 + m * 60 + s = ms / 1000) by lia.
  destruct (twoDigitField_ok m Hm) as [Mc [_ Mp]].
  destruct (twoDigitField_ok s Hs) as [Sc _].
  destruct (minuteField_ok m Hm) as [Nc Np].
  destruct (Z.gtb_spec h 0) as [Hpos|Hzero].
  - (* H:MM:SS *)
    destruct h as [|p|p]; try lia. cbn [orb].
    eexists. split.
    + unfold labelSeconds. cbn [append].
      rewrite String_split_app by (rewrite Number_toString_pos; apply noColon_uint).
      rewrite (String_split_app _ _ _ Mc), (String_split_none _ _ Sc).
      rewrite parseDigits_pos, Mp, (secondsOfField_twoDigit s Hs). reflexivity.
    + rewrite Z2N.id by lia. cbn [Z.of_N].
      change 3600%Q with (inject_Z 3600). change 60%Q with (inject_Z 60).
      rewrite <- !inject_Z_mult, <- !inject_Z_plus.
      apply Qeq_inject_Z, Hwhole.
  - assert (h = 0) by lia. cbn [orb].
    destruct Hf as [Hf|Hf].
    + (* M:SS *)
      rewrite Hf. cbn [Nat.ltb Nat.leb Nat.eqb].
      eexists. split.
      * unfold labelSeconds. cbn [append].
        rewrite (String_split_app _ _ _ Nc), (String_split_none _ _ Sc).
        rewrite Np, (secondsOfField_twoDigit s Hs). reflexivity.
      * rewrite Z2N.id by lia.
        change 60%Q with (inject_Z 60).
        rewrite <- !inject_Z_mult, <- !inject_Z_plus.
        apply Qeq_inject_Z. lia.
    + (* M:SS.f and M:SS.ff *)
      set (unit := 1000 / 10 ^ Z.of_nat f).
      assert (Hunit : 0 < unit /\ 10 ^ Z.of_nat f * unit = 1000
                      /\ 60 * 10 ^ Z.of_nat f * unit = 60000
                      /\ 0 < 10 ^ Z.of_nat f).
      { unfold unit. destruct Hf as [->| ->]; vm_compute; repeat split; congruence. }
      destruct Hunit as [Hu [Hten [Hper Hpow]]].
      assert (Hnat : (0 <? f)%nat = true /\ (f =? 0)%nat = false)
        by (destruct Hf as [->| ->]; split; reflexivity).
      destruct Hnat as [-> ->].
      rewrite (toFixed_seconds (tieUp ms) ms unit f Hms Hu Hten).
      set (n := roundedUnits (tieUp ms) (ms mod 60000) unit).
      assert (Hn : (f = 1%nat /\ 0 <= n <= 600) \/ (f = 2%nat /\ 0 <= n <= 6000)).
      { assert (Hb : ms mod 60000 / unit <= n <= ms mod 60000 / unit + 1).
        { unfold n, roundedUnits. destruct (_ <? _); [lia|].
          destruct (_ <? _); [lia|]. destruct (tieUp ms); lia. }
        assert (0 <= ms mod 60000 / unit) by (apply Z.div_pos; lia).
        destruct Hf as [E|E]; [left|right]; (split; [exact E|]);
          unfold unit in *; rewrite E in *.
        - change (1000 / 10 ^ Z.of_nat 1) with 100 in *.
          assert (ms mod 60000 / 100 < 600) by (apply Z.div_lt_upper_bound; lia).
          lia.
        - change (1000 / 10 ^ Z.of_nat 2) with 10 in *.
          assert (ms mod 60000 / 10 < 6000) by (apply Z.div_lt_upper_bound; lia).
          lia. }
      destruct (fractionField_ok f n (Number_toString m) Hn)
        as [field [q [-> [Fc [Fs Fq]]]]].
      eexists. split.
      * unfold labelSeconds.
        rewrite (String_split_app _ _ _ Nc), (String_split_none _ _ Fc).
        rewrite Np, Fs. reflexivity.
      * rewrite Z2N.id by lia. rewrite Fq.
        rewrite <- (roundedUnits_minute (tieUp ms) ms unit (60 * 10 ^ Z.of_nat f) Hu Hper).
        fold n.
        assert (Hmin : ms / 60000 = m) by lia.
        rewrite Hmin, inject_Z_plus, !inject_Z_mult.
        change (inject_Z 60) with 60%Q.
        pose proof (inject_Z_pos _ Hpow). field. lra.
Qed.

(** The time a label shows does not decrease with the time formatted. *)
Lemma labelTime_le (tieUp : Z -> bool) (intervalMs : Q) (ms1 ms2 : Z) :
  ms1 < ms2 ->
  ms1 / 3600000 = ms2 / 3600000 ->
  (labelTime tieUp ms1 intervalMs <= labelTime tieUp ms2 intervalMs)%Q.
Proof.
  intros Hlt Hhour. unfold labelTime. rewrite Hhour.
  set (f := fractionalDigitsOf intervalMs).
  assert (Hf : f = 0%nat \/ f = 1%nat \/ f = 2%nat).
  { unfold f, fractionalDigitsOf.
    destruct (Qltb intervalMs 250); [|destruct (Qltb intervalMs 1000)]; auto. }
  destruct ((ms2 / 3600000 >? 0) || (f =? 0)%nat) eqn:E.
  - rewrite <- Zle_Qle. apply Z.div_le_mono; lia.
  - assert (Hu : 0 < 1000 / 10 ^ Z.of_nat f /\ 0 < 10 ^ Z.of_nat f).
    { destruct Hf as [->|[->| ->]]; vm_compute; split; congruence. }
    destruct Hu as [Hu Hpow].
    pose proof (roundedUnits_le (tieUp ms1) (tieUp ms2) ms1 ms2 _ Hu Hlt) as Hr.
    rewrite Zle_Qle in Hr. pose proof (inject_Z_pos _ Hpow) as Hp.
    apply Qle_shift_div_l; [exact Hp|].
    unfold Qdiv. rewrite <- Qmult_assoc, (Qmult_comm (/ _)), Qmult_inv_r by lra.
    lra.
Qed.

(** C6, as the code has it.  For a fixed interval and two times of the
    same hour, zero or later, the label of the earlier time never reads as
    a later time than the label of the later one.  The labels can be
    equal. *)
Theorem formatTimeLabel_monotone (tieUp : Z -> bool) (intervalMs : Q) (ms1 ms2 : Z) :
  (0 < intervalMs)%Q ->
  0 <= ms1 ->
  ms1 < ms2 ->
  ms1 / 3600000 = ms2 / 3600000 ->
  exists t1 t2 : Q,
    labelSeconds (formatTimeLabel tieUp ms1 intervalMs) = Some t1
    /\ labelSeconds (formatTimeLabel tieUp ms2 intervalMs) = Some t2
    /\ (t1 <= t2)%Q.
Proof.
  intros _ H0 Hlt Hhour.
  destruct (labelSeconds_formatTimeLabel tieUp ms1 intervalMs H0) as [t1 [L1 E1]].
  destruct (labelSeconds_formatTimeLabel tieUp ms2 intervalMs ltac:(lia))
    as [t2 [L2 E2]].
  exists t1, t2. split; [exact L1|]. split; [exact L2|].
  rewrite E1, E2. apply labelTime_le; assumption.
Qed.

Lemma formatTimeLabel_monotone_witness :
  (0 < 500)%Q /\ 0 <= 59960 /\ 59960 < 60000
  /\ 59960 / 3600000 = 60000 / 3600000
  /\ exists t1 t2 : Q,
       labelSeconds (formatTimeLabel (fun _ => true) 59960 500) = Some t1
       /\ labelSeconds (formatTimeLabel (fun _ => true) 60000 500) = Some t2
       /\ (t1 <= t2)%Q.
Proof.
  split; [reflexivity|]. split; [lia|]. split; [lia|]. split; [reflexivity|].
  apply (formatTimeLabel_monotone (fun _ => true) 500 59960 60000);
    [reflexivity | lia | lia | reflexivity].
Defined.

(** The claim as the specification states it fails: at an interval of one
    second the times 0 ms and 1 ms of the same hour have the same label. *)
Lemma formatTimeLabel_not_strict :
  (0 < 1000)%Q /\ 0 < 1 /\ 0 / 3600000 = 1 / 3600000
  /\ formatTimeLabel (fun _ => true) 0 1000 = "0:00"%string
  /\ formatTimeLabel (fun _ => true) 1 1000 = "0:00"%string
  /\ ~ (formatTimeLabel (fun _ => true) 0 1000 <> formatTimeLabel (fun _ => true) 1 1000).
Proof.
  split; [reflexivity|]. split; [lia|]. split; [reflexivity|].
  split; [reflexivity|]. split; [reflexivity|].
  intros H. apply H. reflexivity.
Qed.

(** Nor do labels ascend as strings: minutes have no leading zero, and
    ["10:00"] comes before ["9:59"] in the order of strings. *)
Example formatTimeLabel_not_lexical :
  formatTimeLabel (fun _ => true) 599000 1000 = "9:59"%string
  /\ formatTimeLabel (fun _ => true) 600000 1000 = "10:00"%string
  /\ String.compare "10:00" "9:59" = Lt.
Proof. repeat split. Qed.

(** A rounded seconds field can read sixty: the label of 59.96 s at one
    fractional digit. *)
Example formatTimeLabel_sixty :
  formatTimeLabel (fun _ => true) 59960 500 = "0:60.0"%string
  /\ formatTimeLabel (fun _ => false) 1050 500 = "0:01.0"%string
  /\ formatTimeLabel (fun _ => true) 1050 500 = "0:01.1"%string.
Proof. repeat split. Qed.

(** Below zero the fields carry signs and a label reads as no time; the
    formatter is meant for times of zero or more. *)
Example formatTimeLabel_negative :
  formatTimeLabel (fun _ => true) (-1001) 1000 = "-1:-2"%string
  /\ formatTimeLabel (fun _ => true) (-61500) 500 = "-2:-1.5"%string
  /\ labelSeconds (formatTimeLabel (fun _ => true) (-1001) 1000) = None.
Proof. repeat split. Qed.

(* ================================================================== *)
(** * Part III.  Further properties of the code                        *)
(* ================================================================== *)

(** ** Region Normalizer: what the effect does to the store *)

Lemma editorSafeMinDurationMs_is_1 (videoDuration : Q) :
  editorSafeMinDurationMs videoDuration = 1.
Proof.
  unfold editorSafeMinDurationMs, safeMinDurationMs.
  rewrite minItemDurationMs_is_1.
  destruct (Z.gtb_spec (totalMsOf videoDuration) 0); lia.
Qed.

Lemma totalMsOf_nonneg (videoDuration : Q) : 0 <= totalMsOf videoDuration.
Proof. unfold totalMsOf. lia. Qed.

Lemma normalizationEffect_silent (totalMs safeMin : Z)
  (zoomRegions : list ZoomRegion) :
  (forall region, In region zoomRegions -> validRegion totalMs safeMin region) ->
  normalizationEffect totalMs safeMin zoomRegions = [].
Proof.
  intros Hvalid. unfold normalizationEffect.
  destruct (totalMs =? 0); [reflexivity|].
  destruct (Z.leb_spec safeMin 0) as [|Hpos]; [reflexivity|]. cbn [orb].
  induction zoomRegions as [|region rest IH]; [reflexivity|].
  cbn [flat_map]. rewrite IH by (intros r Hr; apply Hvalid; right; exact Hr).
  destruct (Hvalid region (or_introl eq_refl)) as [Hs He].
  rewrite (normalizeRegion_fixed totalMs safeMin region ltac:(lia) Hs He).
  cbn [span_start span_end]. rewrite !Z.eqb_refl. reflexivity.
Qed.

(** X1.  The effect asks for no change of a region that lies within the
    duration and has the minimum length: on a store of such regions it
    calls nothing. *)
Theorem normalizationEffect_valid_silent (totalMs safeMin : Z)
  (zoomRegions : list ZoomRegion) :
  (forall region, In region zoomRegions -> validRegion totalMs safeMin region) ->
  normalizationEffect totalMs safeMin zoomRegions = [].
Proof. exact (normalizationEffect_silent totalMs safeMin zoomRegions). Qed.

Lemma normalizationEffect_valid_silent_witness :
  (forall region, In region [mkZoomRegion "a" 0 1000; mkZoomRegion "b" 2999 3000] ->
     validRegion 3000 1 region)
  /\ normalizationEffect 3000 1 [mkZoomRegion "a" 0 1000; mkZoomRegion "b" 2999 3000]
     = [].
Proof.
  assert (H : forall region,
             In region [mkZoomRegion "a" 0 1000; mkZoomRegion "b" 2999 3000] ->
             validRegion 3000 1 region).
  { intros region [<-|[<-|[]]]; unfold validRegion; simpl; lia. }
  split; [exact H | apply (normalizationEffect_valid_silent 3000 1 _ H)].
Defined.

(** X2.  The end of a normalized region passes the duration exactly when the
    start of the region leaves no room for the minimum length, and then by
    no more than that length. *)
Theorem normalizeRegion_overshoot (totalMs safeMin : Z) (region : ZoomRegion) :
  0 < safeMin <= totalMs ->
  let s := normalizeRegion totalMs safeMin region in
  (span_end s > totalMs <-> startMs region > totalMs - safeMin)
  /\ span_end s <= totalMs + safeMin.
Proof.
  intros Hmin. split; [apply normalizeRegion_end_past_iff, Hmin|].
  unfold normalizeRegion; cbn [startMs endMs span_start span_end].
  name_minmax. lia.
Qed.

Lemma normalizeRegion_overshoot_witness :
  0 < 1 <= 3000 /\
  let s := normalizeRegion 3000 1 (mkZoomRegion "a" 2000 9000) in
  (span_end s > 3000 <-> 2000 > 3000 - 1) /\ span_end s <= 3000 + 1.
Proof.
  split; [lia|].
  apply (normalizeRegion_overshoot 3000 1 (mkZoomRegion "a" 2000 9000)). lia.
Defined.

Lemma normalizedRegion_twice_valid (totalMs safeMin : Z) (region : ZoomRegion) :
  0 < safeMin <= totalMs ->
  validRegion totalMs safeMin
    (normalizedRegion totalMs safeMin (normalizedRegion totalMs safeMin region)).
Proof.
  intros Hmin.
  set (once := normalizedRegion totalMs safeMin region).
  assert (Hroom : startMs once <= totalMs - safeMin).
  { unfold once, normalizedRegion; cbn [startMs].
    apply normalizeRegion_start_bounds, Hmin. }
  pose proof (normalizeRegion_start_bounds totalMs safeMin once Hmin) as Hs.
  pose proof (normalizeRegion_in_room totalMs safeMin once Hmin Hroom) as He.
  unfold validRegion, normalizedRegion; cbn [startMs endMs]. cbv zeta in He. lia.
Qed.

(** X3.  Whatever the regions and the duration of the video, the store is at
    rest after the effect has run twice: every region then lies within the
    duration with the minimum length, and a third run calls nothing. *)
Theorem editorNormalizationEffect_converges (videoDuration : Q)
  (zoomRegions : list ZoomRegion) :
  let totalMs := totalMsOf videoDuration in
  let safeMin := editorSafeMinDurationMs videoDuration in
  let twice :=
    map (normalizedRegion totalMs safeMin)
      (map (normalizedRegion totalMs safeMin) zoomRegions) in
  editorNormalizationEffect videoDuration twice = []
  /\ (totalMs > 0 -> forall region, In region twice ->
        0 <= startMs region /\ startMs region < endMs region <= totalMs).
Proof.
  intros totalMs safeMin twice.
  assert (Hsafe : safeMin = 1) by apply editorSafeMinDurationMs_is_1.
  pose proof (totalMsOf_nonneg videoDuration) as Hnn. fold totalMs in Hnn.
  assert (Hvalid : totalMs > 0 -> forall region, In region twice ->
                     validRegion totalMs safeMin region).
  { intros Hpos region Hin. unfold twice in Hin. rewrite map_map in Hin.
    apply in_map_iff in Hin. destruct Hin as [r [<- _]].
    apply normalizedRegion_twice_valid. lia. }
  split.
  - unfold editorNormalizationEffect. fold totalMs safeMin.
    destruct (Z.eq_dec totalMs 0) as [E|N].
    + unfold normalizationEffect. rewrite E. reflexivity.
    + apply normalizationEffect_silent. apply Hvalid. lia.
  - intros Hpos region Hin. destruct (Hvalid Hpos region Hin) as [Hs He]. lia.
Qed.

(** ** Overlap/Gap Detector *)

(** X4.  Excluding an identifier is the same as testing against the store
    without the regions of that identifier. *)
Theorem hasOverlap_exclude (zoomRegions : list ZoomRegion) (newSpan : Span)
  (excludeId : string) :
  hasOverlap zoomRegions newSpan (Some excludeId)
  = hasOverlap
      (filter (fun region => negb (String.eqb (id region) excludeId)) zoomRegions)
      newSpan None.
Proof.
  unfold hasOverlap.
  induction zoomRegions as [|region rest IH]; [reflexivity|].
  cbn [existsb filter]. rewrite IH. unfold conflictsWith at 1. cbn [isExcluded].
  destruct (String.eqb (id region) excludeId); cbn [negb orb existsb];
    reflexivity.
Qed.

(** X5.  A span that the detector accepts overlaps no region that is not
    excluded: moving or resizing through the detector keeps regions
    disjoint. *)
Theorem hasOverlap_accept_disjoint (zoomRegions : list ZoomRegion) (newSpan : Span)
  (excludeId : option string) :
  hasOverlap zoomRegions newSpan excludeId = false ->
  forall region, In region zoomRegions -> isExcluded region excludeId = false ->
    overlaps newSpan region = false.
Proof.
  unfold hasOverlap. intros H region Hin Hex.
  assert (Hc : conflictsWith newSpan excludeId region = false).
  { destruct (conflictsWith newSpan excludeId region) eqn:E; [|reflexivity].
    assert (Ht : existsb (conflictsWith newSpan excludeId) zoomRegions = true)
      by (apply existsb_exists; exists region; auto).
    congruence. }
  unfold conflictsWith in Hc. rewrite Hex in Hc. cbv zeta in Hc.
  destruct (_ && _); [discriminate|]. destruct (_ && _); [discriminate|].
  exact Hc.
Qed.

Lemma hasOverlap_accept_disjoint_witness :
  let zoomRegions := [mkZoomRegion "a" 0 1000; mkZoomRegion "b" 1005 2000] in
  hasOverlap zoomRegions (mkSpan 1000 1005) None = false
  /\ forall region, In region zoomRegions -> isExcluded region None = false ->
       overlaps (mkSpan 1000 1005) region = false.
Proof.
  split; [reflexivity|].
  apply (hasOverlap_accept_disjoint
           [mkZoomRegion "a" 0 1000; mkZoomRegion "b" 1005 2000]
           (mkSpan 1000 1005) None).
  reflexivity.
Defined.

(** X6.  For a span and regions whose ends come after their starts, the
    detector accepts exactly when every region that is not excluded lies on
    one side of the span, touching it or more than 2 ms away. *)
Theorem hasOverlap_accept_iff (zoomRegions : list ZoomRegion) (newSpan : Span)
  (excludeId : option string) :
  properSpan newSpan ->
  (forall region, In region zoomRegions -> properRegion region) ->
  (hasOverlap zoomRegions newSpan excludeId = false
   <-> forall region, In region zoomRegions -> isExcluded region excludeId = false ->
         let gapBefore := span_start newSpan - endMs region in
         let gapAfter := startMs region - span_end newSpan in
         gapBefore = 0 \/ 2 < gapBefore \/ gapAfter = 0 \/ 2 < gapAfter).
Proof.
  unfold properSpan, properRegion. intros Hspan Hregions.
  unfold hasOverlap. rewrite <- not_true_iff_false, existsb_exists.
  split.
  - intros Hnone region Hin Hex. cbv zeta.
    specialize (Hregions region Hin).
    destruct (conflictsWith newSpan excludeId region) eqn:E.
    { exfalso. apply Hnone. exists region. auto. }
    unfold conflictsWith in E. rewrite Hex in E. cbv zeta in E.
    destruct (Z.gtb_spec (span_start newSpan - endMs region) 0);
      destruct (Z.leb_spec (span_start newSpan - endMs region) 2);
      cbn [andb] in E; try discriminate;
      destruct (Z.gtb_spec (startMs region - span_end newSpan) 0);
      destruct (Z.leb_spec (startMs region - span_end newSpan) 2);
      cbn [andb] in E; try discriminate;
      destruct (Z.leb_spec (span_end newSpan) (startMs region));
      destruct (Z.geb_spec (span_start newSpan) (endMs region));
      cbn [orb negb] in E; try discriminate; lia.
  - intros Hall [region [Hin Hc]].
    specialize (Hregions region Hin).
    unfold conflictsWith in Hc.
    destruct (isExcluded region excludeId) eqn:Hex; [discriminate|].
    specialize (Hall region Hin Hex). cbv zeta in Hall, Hc.
    destruct (Z.gtb_spec (span_start newSpan - endMs region) 0);
      destruct (Z.leb_spec (span_start newSpan - endMs region) 2);
      cbn [andb] in Hc; try lia;
      destruct (Z.gtb_spec (startMs region - span_end newSpan) 0);
      destruct (Z.leb_spec (startMs region - span_end newSpan) 2);
      cbn [andb] in Hc; try lia;
      destruct (Z.leb_spec (span_end newSpan) (startMs region));
      destruct (Z.geb_spec (span_start newSpan) (endMs region));
      cbn [orb negb] in Hc; try discriminate; lia.
Qed.

Lemma hasOverlap_accept_iff_witness :
  let zoomRegions := [mkZoomRegion "a" 0 1000; mkZoomRegion "b" 4002 5000] in
  let newSpan := mkSpan 1000 4000 in
  properSpan newSpan
  /\ (forall region, In region zoomRegions -> properRegion region)
  /\ (hasOverlap zoomRegions newSpan None = false
      <-> forall region, In region zoomRegions -> isExcluded region None = false ->
            let gapBefore := span_start newSpan - endMs region in
            let gapAfter := startMs region - span_end newSpan in
            gapBefore = 0 \/ 2 < gapBefore \/ gapAfter = 0 \/ 2 < gapAfter).
Proof.
  assert (H1 : properSpan (mkSpan 1000 4000)) by (unfold properSpan; simpl; lia).
  assert (H2 : forall region,
             In region [mkZoomRegion "a" 0 1000; mkZoomRegion "b" 4002 5000] ->
             properRegion region).
  { intros region [<-|[<-|[]]]; unfold properRegion; simpl; lia. }
  split; [exact H1|]. split; [exact H2|].
  apply (hasOverlap_accept_iff _ (mkSpan 1000 4000) None H1 H2).
Defined.

(** X7.  The test of one span against one region does not depend on which of
    the two is the candidate, snap gaps included. *)
Theorem hasOverlap_symmetric (a b : Span) (nameA nameB : string) :
  hasOverlap [regionOf nameB b] a None = hasOverlap [regionOf nameA a] b None.
Proof.
  unfold hasOverlap, conflictsWith, regionOf;
    cbn [existsb isExcluded startMs endMs].
  rewrite !orb_false_r.
  destruct (Z.gtb_spec (span_start a - span_end b) 0);
    destruct (Z.leb_spec (span_start a - span_end b) 2);
    destruct (Z.gtb_spec (span_start b - span_end a) 0);
    destruct (Z.leb_spec (span_start b - span_end a) 2);
    cbn [andb]; try reflexivity;
    destruct (Z.leb_spec (span_end a) (span_start b));
    destruct (Z.geb_spec (span_start a) (span_end b));
    destruct (Z.leb_spec (span_end b) (span_start a));
    destruct (Z.geb_spec (span_start b) (span_end a));
    cbn [orb negb]; try reflexivity; lia.
Qed.

(** ** Placement Finder: first fit *)

(** Every start between the start of the scan and its result would put the
    new region over an existing one. *)
Lemma scanRegions_earliest (d : Z) (sorted : list ZoomRegion) :
  forall startPos p,
    startPos <= p < scanRegions d startPos sorted ->
    exists region, In region sorted /\ overlaps (mkSpan p (p + d)) region = true.
Proof.
  induction sorted as [|region rest IH]; intros startPos p Hp; simpl in Hp.
  - lia.
  - destruct (Z.leb_spec (startPos + d) (startMs region)) as [|Hno]; [lia|].
    destruct (Z_lt_dec p (endMs region)) as [Hin|Hout].
    + exists region. split; [left; reflexivity|].
      unfold overlaps; cbn [span_start span_end].
      destruct (Z.leb_spec (p + d) (startMs region)); [lia|].
      destruct (Z.geb_spec p (endMs region)); [lia|]. reflexivity.
    + destruct (IH (Z.max startPos (endMs region)) p ltac:(lia)) as [r [Hr Ho]].
      exists r. split; [right; exact Hr | exact Ho].
Qed.

Lemma handleAddZoom_scan (videoDuration : Q) (totalMs safeMin : Z)
  (zoomRegions : list ZoomRegion) :
  handleAddZoom videoDuration totalMs safeMin zoomRegions <> NoAction ->
  let d := defaultDurationMs safeMin totalMs in
  let p := scanRegions d 0 (Array_sort byStartMs zoomRegions) in
  0 < d /\ 0 <= p
  /\ handleAddZoom videoDuration totalMs safeMin zoomRegions
     = if p + d >? totalMs then NoSpaceAvailable else ZoomAdded (mkSpan p (p + d)).
Proof.
  intros H d p. unfold handleAddZoom in *. fold d in H |- *. fold p in H |- *.
  destruct (Qeq_bool videoDuration 0 || Qeq_bool videoDuration 0 || (totalMs =? 0));
    [congruence|].
  destruct (Z.leb_spec d 0); [congruence|].
  split; [lia|]. split; [|reflexivity].
  destruct (scanRegions_spec d (Array_sort byStartMs zoomRegions)
              (Array_sort_sorted startMs byStartMs (fun a b => eq_refl) zoomRegions) 0)
    as [Hp _].
  exact Hp.
Qed.

(** X8.  The span that "Add Zoom" places is the earliest free one: the new
    region would overlap an existing region at every earlier start. *)
Theorem handleAddZoom_earliest (videoDuration : Q) (totalMs safeMin : Z)
  (zoomRegions : list ZoomRegion) (span : Span) :
  handleAddZoom videoDuration totalMs safeMin zoomRegions = ZoomAdded span ->
  0 <= span_start span
  /\ forall p, 0 <= p < span_start span ->
       exists region,
         In region zoomRegions
         /\ overlaps (mkSpan p (p + defaultDurationMs safeMin totalMs)) region = true.
Proof.
  intros H.
  destruct (handleAddZoom_scan videoDuration totalMs safeMin zoomRegions
              ltac:(congruence)) as [Hd [Hp Heq]].
  rewrite H in Heq. destruct (_ >? _); [discriminate|].
  injection Heq as ->. cbn [span_start]. split; [exact Hp|].
  intros q Hq.
  destruct (scanRegions_earliest _ _ 0 q Hq) as [r [Hr Ho]].
  exists r. split; [apply (proj1 (Array_sort_In byStartMs zoomRegions r)), Hr | exact Ho].
Qed.

Lemma handleAddZoom_earliest_witness :
  let zoomRegions := [mkZoomRegion "b" 4002 5000; mkZoomRegion "a" 0 1000] in
  handleAddZoom 10 10000 1 zoomRegions = ZoomAdded (mkSpan 1000 4000)
  /\ 0 <= 1000
  /\ forall p, 0 <= p < 1000 ->
       exists region,
         In region zoomRegions
         /\ overlaps (mkSpan p (p + defaultDurationMs 1 10000)) region = true.
Proof.
  split; [reflexivity|].
  apply (handleAddZoom_earliest 10 10000 1
           [mkZoomRegion "b" 4002 5000; mkZoomRegion "a" 0 1000] (mkSpan 1000 4000)).
  reflexivity.
Defined.

(** X9.  "No space available" is said only when it is so: then the new region
    would overlap an existing one wherever it were put within the
    duration. *)
Theorem handleAddZoom_no_space (videoDuration : Q) (totalMs safeMin : Z)
  (zoomRegions : list ZoomRegion) :
  handleAddZoom videoDuration totalMs safeMin zoomRegions = NoSpaceAvailable ->
  forall p, 0 <= p -> p + defaultDurationMs safeMin totalMs <= totalMs ->
    exists region,
      In region zoomRegions
      /\ overlaps (mkSpan p (p + defaultDurationMs safeMin totalMs)) region = true.
Proof.
  intros H p Hp Hfit.
  destruct (handleAddZoom_scan videoDuration totalMs safeMin zoomRegions
              ltac:(congruence)) as [Hd [Hs Heq]].
  rewrite H in Heq.
  destruct (Z.gtb_spec
              (scanRegions (defaultDurationMs safeMin totalMs) 0
                 (Array_sort byStartMs zoomRegions)
               + defaultDurationMs safeMin totalMs) totalMs) as [Hgt|];
    [|discriminate].
  destruct (scanRegions_earliest (defaultDurationMs safeMin totalMs)
              (Array_sort byStartMs zoomRegions) 0 p ltac:(lia)) as [r [Hr Ho]].
  exists r. split; [apply (proj1 (Array_sort_In byStartMs zoomRegions r)), Hr | exact Ho].
Qed.

Lemma handleAddZoom_no_space_witness :
  let zoomRegions := [mkZoomRegion "a" 0 2000; mkZoomRegion "b" 2001 3000] in
  handleAddZoom 5 5000 1 zoomRegions = NoSpaceAvailable
  /\ forall p, 0 <= p -> p + defaultDurationMs 1 5000 <= 5000 ->
       exists region,
         In region zoomRegions
         /\ overlaps (mkSpan p (p + defaultDurationMs 1 5000)) region = true.
Proof.
  split; [reflexivity|].
  apply (handleAddZoom_no_space 5 5000 1
           [mkZoomRegion "a" 0 2000; mkZoomRegion "b" 2001 3000]).
  reflexivity.
Defined.

Lemma totalMsOf_zero (videoDuration : Q) :
  (videoDuration == 0)%Q -> totalMsOf videoDuration = 0.
Proof.
  intros H. unfold totalMsOf, Math_round.
  rewrite (Qfloor_comp (videoDuration * 1000 + (1 # 2)) (1 # 2))
    by (rewrite H; ring).
  reflexivity.
Qed.

(** X10.  With a video loaded (a duration that rounds to at least 1 ms), "Add
    Zoom" always answers: it places a region of 3000 ms, or of the whole
    duration if that is shorter, or it says that there is no space. *)
Theorem editorHandleAddZoom_answers (videoDuration : Q)
  (zoomRegions : list ZoomRegion) :
  totalMsOf videoDuration > 0 ->
  editorHandleAddZoom videoDuration zoomRegions = NoSpaceAvailable
  \/ exists span,
       editorHandleAddZoom videoDuration zoomRegions = ZoomAdded span
       /\ span_end span - span_start span = Z.min 3000 (totalMsOf videoDuration).
Proof.
  intros Hpos. unfold editorHandleAddZoom.
  rewrite editorSafeMinDurationMs_is_1.
  set (totalMs := totalMsOf videoDuration) in *.
  assert (Hact : handleAddZoom videoDuration totalMs 1 zoomRegions <> NoAction).
  { unfold handleAddZoom.
    destruct (Qeq_bool videoDuration 0) eqn:E.
    { apply Qeq_bool_iff, totalMsOf_zero in E. fold totalMs in E. lia. }
    rewrite (proj2 (Z.eqb_neq totalMs 0)) by lia. cbn [orb].
    unfold defaultDurationMs.
    rewrite (proj2 (Z.leb_gt _ _)) by lia.
    destruct (_ >? _); discriminate. }
  destruct (handleAddZoom_scan videoDuration totalMs 1 zoomRegions Hact)
    as [_ [_ ->]].
  destruct (_ >? _); [left; reflexivity|].
  right. eexists. split; [reflexivity|].
  cbn [span_start span_end]. unfold defaultDurationMs. lia.
Qed.

Lemma editorHandleAddZoom_answers_witness :
  totalMsOf 2 > 0
  /\ (editorHandleAddZoom 2 [] = NoSpaceAvailable
      \/ exists span,
           editorHandleAddZoom 2 [] = ZoomAdded span
           /\ span_end span - span_start span = Z.min 3000 (totalMsOf 2)).
Proof.
  split; [reflexivity | apply (editorHandleAddZoom_answers 2 [])]. reflexivity.
Defined.

(** X11.  A region that "Add Zoom" places needs no normalization: the effect
    leaves it as it is. *)
Theorem editorHandleAddZoom_normalized (videoDuration : Q)
  (zoomRegions : list ZoomRegion) (span : Span) (name : string) :
  editorHandleAddZoom videoDuration zoomRegions = ZoomAdded span ->
  editorNormalizationEffect videoDuration [regionOf name span] = [].
Proof.
  unfold editorHandleAddZoom, editorNormalizationEffect.
  rewrite editorSafeMinDurationMs_is_1.
  set (totalMs := totalMsOf videoDuration). intros H.
  destruct (handleAddZoom_scan videoDuration totalMs 1 zoomRegions
              ltac:(congruence)) as [Hd [Hp Heq]].
  rewrite H in Heq.
  destruct (Z.gtb_spec
              (scanRegions (defaultDurationMs 1 totalMs) 0
                 (Array_sort byStartMs zoomRegions) + defaultDurationMs 1 totalMs)
              totalMs) as [|Hfit]; [discriminate|].
  injection Heq as ->.
  apply normalizationEffect_silent.
  intros region [<-|[]].
  unfold validRegion, regionOf; cbn [startMs endMs span_start span_end].
  unfold defaultDurationMs in *. lia.
Qed.

Lemma editorHandleAddZoom_normalized_witness :
  editorHandleAddZoom 10 [mkZoomRegion "a" 0 1000] = ZoomAdded (mkSpan 1000 4000)
  /\ editorNormalizationEffect 10 [regionOf "b" (mkSpan 1000 4000)] = [].
Proof.
  split; [reflexivity|].
  apply (editorHandleAddZoom_normalized 10 [mkZoomRegion "a" 0 1000]
           (mkSpan 1000 4000) "b").
  reflexivity.
Defined.

(** ** Scale Selector: the selected candidate *)

Lemma selected_In (d : Q) : In (selected d) SCALE_CANDIDATES.
Proof. apply selectCandidate_In. discriminate. Qed.

Lemma calculateTimelineScale_selected (d : Q) :
  intervalMs (calculateTimelineScale d) = Math_round (intervalSeconds (selected d) * 1000)
  /\ gridMs (calculateTimelineScale d) = Math_round (gridSeconds (selected d) * 1000).
Proof. split; reflexivity. Qed.

(** The intervals of the table are whole numbers of milliseconds. *)
Lemma SCALE_CANDIDATES_whole_ms :
  forall c, In c SCALE_CANDIDATES ->
    (inject_Z (Math_round (intervalSeconds c * 1000)) == intervalSeconds c * 1000)%Q.
Proof.
  apply Forall_forall. unfold SCALE_CANDIDATES.
  repeat (constructor; [reflexivity|]). constructor.
Qed.

Lemma candidateFits_true (d : Q) (c : ScaleCandidate) :
  (0 < d)%Q -> (0 < intervalSeconds c)%Q ->
  (candidateFits d c = true <-> (d <= 12 * intervalSeconds c)%Q).
Proof.
  intros Hd Hc. unfold candidateFits, TARGET_MARKER_COUNT.
  rewrite (proj2 (Qle_bool_false d 0) Hd), Qle_bool_iff.
  split; intros H.
  - assert (E : (d == d / intervalSeconds c * intervalSeconds c)%Q)
      by (field; lra).
    rewrite E. apply Qmult_le_compat_r; lra.
  - apply Qle_shift_div_r; assumption.
Qed.

(** Elements in front of the selected candidate do not fit. *)
Lemma selectCandidate_finest (fits : ScaleCandidate -> bool)
  (l : list ScaleCandidate) (d c : ScaleCandidate) :
  StronglySorted interval_le l ->
  In c l ->
  (intervalSeconds c < intervalSeconds (selectCandidate fits l d))%Q ->
  fits c = false.
Proof.
  induction 1 as [|a l Hl IH Ha]; [intros []|].
  rewrite selectCandidate_cons. intros Hin Hlt.
  rewrite Forall_forall in Ha.
  destruct (fits a) eqn:E.
  - destruct Hin as [<-|Hin]; [lra|].
    specialize (Ha c Hin). unfold interval_le in Ha. lra.
  - destruct l as [|b l].
    + destruct Hin as [<-|[]]. lra.
    + destruct Hin as [<-|Hin]; [exact E|]. apply IH; assumption.
Qed.

(** X12.  The marker bound: for a duration of up to twelve hours the selected
    interval gives at most twelve intervals over the duration; beyond, the
    coarsest interval of one hour is used. *)
Theorem calculateTimelineScale_marker_bound (durationSeconds : Q) :
  (0 < durationSeconds)%Q ->
  ((durationSeconds <= 43200)%Q ->
     (durationSeconds * 1000
      <= 12 * inject_Z (intervalMs (calculateTimelineScale durationSeconds)))%Q)
  /\ ((43200 < durationSeconds)%Q ->
        intervalMs (calculateTimelineScale durationSeconds) = 3600000).
Proof.
  intros Hd.
  destruct (calculateTimelineScale_selected durationSeconds) as [-> _].
  pose proof (selected_In durationSeconds) as Hin.
  unfold selected in *. unfold selectCandidate in *.
  destruct (find (candidateFits durationSeconds) SCALE_CANDIDATES) as [c|] eqn:F.
  - apply find_some in F. destruct F as [Hc Hfit].
    pose proof (SCALE_CANDIDATES_positive c Hc) as Hpos.
    apply (candidateFits_true _ _ Hd Hpos) in Hfit.
    split.
    + intros _. rewrite (SCALE_CANDIDATES_whole_ms c Hc). lra.
    + intros Hbig. exfalso.
      assert (Hmax : forall x, In x SCALE_CANDIDATES -> (intervalSeconds x <= 3600)%Q).
      { apply Forall_forall. unfold SCALE_CANDIDATES.
        repeat (constructor; [unfold Qle; simpl; lia|]). constructor. }
      specialize (Hmax c Hc). lra.
  - split; [|intros _; reflexivity].
    intros Hsmall. exfalso.
    pose proof (find_none _ _ F (mkCandidate 3600 300)) as Hlast.
    assert (Hfit : candidateFits durationSeconds (mkCandidate 3600 300) = true).
    { apply candidateFits_true; cbn [intervalSeconds]; lra. }
    rewrite Hlast in Hfit; [discriminate|].
    unfold SCALE_CANDIDATES. repeat (try (left; reflexivity); right).
Qed.

Lemma calculateTimelineScale_marker_bound_witness :
  (0 < 3600)%Q /\
  (((3600 <= 43200)%Q ->
      (3600 * 1000 <= 12 * inject_Z (intervalMs (calculateTimelineScale 3600)))%Q)
   /\ ((43200 < 3600)%Q -> intervalMs (calculateTimelineScale 3600) = 3600000)).
Proof.
  split; [reflexivity | apply (calculateTimelineScale_marker_bound 3600)].
  reflexivity.
Defined.

(** X13.  The selected interval is the finest of the table that fits: every
    finer interval of the table would give more than twelve intervals over
    the duration. *)
Theorem calculateTimelineScale_finest (durationSeconds : Q) (c : ScaleCandidate) :
  In c SCALE_CANDIDATES ->
  Math_round (intervalSeconds c * 1000)
  < intervalMs (calculateTimelineScale durationSeconds) ->
  (0 < durationSeconds)%Q
  /\ (12 < durationSeconds / intervalSeconds c)%Q.
Proof.
  intros Hc Hlt.
  destruct (calculateTimelineScale_selected durationSeconds) as [E _].
  rewrite E in Hlt.
  assert (Hs : (intervalSeconds c < intervalSeconds (selected durationSeconds))%Q).
  { apply Qnot_le_lt. intros Hle.
    apply (Qmult_le_compat_r _ _ 1000) in Hle; [|lra].
    apply Math_round_le in Hle. lia. }
  pose proof (selectCandidate_finest _ _ _ c SCALE_CANDIDATES_sorted Hc Hs) as Hno.
  unfold candidateFits, TARGET_MARKER_COUNT in Hno.
  destruct (Qle_bool durationSeconds 0) eqn:E0; [discriminate|].
  apply Qle_bool_false in E0, Hno. split; assumption.
Qed.

Lemma calculateTimelineScale_finest_witness :
  In (mkCandidate (1 # 2) (1 # 10)) SCALE_CANDIDATES
  /\ Math_round ((1 # 2) * 1000) < intervalMs (calculateTimelineScale 10)
  /\ (0 < 10)%Q /\ (12 < 10 / (1 # 2))%Q.
Proof.
  assert (H1 : In (mkCandidate (1 # 2) (1 # 10)) SCALE_CANDIDATES)
    by (right; left; reflexivity).
  split; [exact H1|]. split; [reflexivity|].
  apply (calculateTimelineScale_finest 10 (mkCandidate (1 # 2) (1 # 10)) H1).
  reflexivity.
Defined.

(** X14.  Whatever the duration, the interval lies between a quarter of a second
    and an hour and the grid divides it into 4 to 12 steps; the default
    length of an item is at least the minimum, at most two intervals and,
    for a known duration, at most the duration. *)
Theorem calculateTimelineScale_ranges (durationSeconds : Q) :
  let scale := calculateTimelineScale durationSeconds in
  let totalMs := totalMsOf durationSeconds in
  250 <= intervalMs scale <= 3600000
  /\ 50 <= gridMs scale
  /\ 4 * gridMs scale <= intervalMs scale <= 12 * gridMs scale
  /\ minItemDurationMs scale <= defaultItemDurationMs scale <= 2 * intervalMs scale
  /\ (totalMs > 0 -> defaultItemDurationMs scale <= totalMs).
Proof.
  intros scale totalMs.
  assert (Htable : forall c, In c SCALE_CANDIDATES ->
            let i := Math_round (intervalSeconds c * 1000) in
            let g := Math_round (gridSeconds c * 1000) in
            250 <= i <= 3600000 /\ 50 <= g /\ 4 * g <= i <= 12 * g).
  { apply Forall_forall. unfold SCALE_CANDIDATES.
    repeat (constructor; [vm_compute; intuition congruence|]). constructor. }
  specialize (Htable (selected durationSeconds) (selected_In durationSeconds)).
  cbv zeta in Htable.
  destruct (calculateTimelineScale_selected durationSeconds) as [Ei Eg].
  fold scale in Ei, Eg. rewrite <- Ei, <- Eg in Htable.
  destruct Htable as [Hi [Hg Hig]].
  split; [exact Hi|]. split; [exact Hg|]. split; [exact Hig|].
  assert (Ed : defaultItemDurationMs scale
               = Z.min (Z.max 1 (intervalMs scale * 2))
                   (if totalMs >? 0 then totalMs else intervalMs scale * 2))
    by reflexivity.
  assert (Em : minItemDurationMs scale = 1) by reflexivity.
  rewrite Ed, Em.
  destruct (Z.gtb_spec totalMs 0); lia.
Qed.

Lemma selected_first (d : Q) :
  candidateFits d (mkCandidate (1 # 4) (1 # 20)) = true ->
  selected d = mkCandidate (1 # 4) (1 # 20).
Proof.
  intros H. unfold selected, SCALE_CANDIDATES.
  rewrite selectCandidate_cons, H. reflexivity.
Qed.

(** X15.  The range the editor starts with is never narrower than the narrowest
    range the scale allows. *)
Theorem createInitialRange_allowed (videoDuration : Q) :
  let range := createInitialRange (inject_Z (totalMsOf videoDuration)) in
  (inject_Z (minVisibleRangeMs (calculateTimelineScale videoDuration))
   <= range_end range - range_start range)%Q.
Proof.
  cbv zeta. unfold createInitialRange.
  pose proof (totalMsOf_nonneg videoDuration) as Hnn.
  assert (Em : minVisibleRangeMs (calculateTimelineScale videoDuration)
               = let i := intervalMs (calculateTimelineScale videoDuration) in
                 if totalMsOf videoDuration >? 0
                 then Z.min (Z.max (Z.max (i * 3) (1 * 6)) 1000) (totalMsOf videoDuration)
                 else Z.max (Z.max (i * 3) (1 * 6)) 1000)
    by reflexivity.
  rewrite Em. cbv zeta.
  destruct (Z.gtb_spec (totalMsOf videoDuration) 0) as [Hpos|Hzero].
  - rewrite (proj2 (Qltb_lt 0 _)
               (inject_Z_pos (totalMsOf videoDuration) ltac:(lia))).
    cbn [range_start range_end].
    assert (H : (inject_Z (Z.min (Z.max (Z.max
                   (intervalMs (calculateTimelineScale videoDuration) * 3) (1 * 6)) 1000)
                   (totalMsOf videoDuration))
                 <= inject_Z (totalMsOf videoDuration))%Q)
      by (rewrite <- Zle_Qle; lia).
    lra.
  - assert (E0 : totalMsOf videoDuration = 0) by lia.
    rewrite E0. cbn [range_start range_end Qltb Qle_bool negb].
    change (Qltb 0 (inject_Z 0)) with false. cbn [range_start range_end].
    assert (Hd : (videoDuration * 1000 + (1 # 2) < 1)%Q).
    { unfold totalMsOf, Math_round in E0.
      pose proof (Qlt_floor (videoDuration * 1000 + (1 # 2))) as Hf.
      assert (Hfl : Qfloor (videoDuration * 1000 + (1 # 2)) <= 0) by lia.
      rewrite Zle_Qle in Hfl.
      rewrite inject_Z_plus in Hf.
      change (inject_Z 1) with 1%Q in Hf. change (inject_Z 0) with 0%Q in Hfl.
      lra. }
    assert (Hfit : candidateFits videoDuration (mkCandidate (1 # 4) (1 # 20)) = true).
    { unfold candidateFits, TARGET_MARKER_COUNT; cbn [intervalSeconds].
      destruct (Qle_bool videoDuration 0); [reflexivity|].
      apply Qle_bool_iff. apply Qle_shift_div_r; lra. }
    destruct (calculateTimelineScale_selected videoDuration) as [-> _].
    rewrite (selected_first _ Hfit).
    vm_compute. discriminate.
Qed.

(** ** [timelineItems] *)

Section TimelineItems.

Let item (region : ZoomRegion) (index : nat) : TimelineRenderItem :=
  mkItem (id region) ROW_ID
    (mkSpan (startMs region) (endMs region))
    ("Zoom " ++ Number_toString (Z.of_nat index + 1))%string.

Lemma Array_mapi_length {A B : Type} (f : A -> nat -> B) (l : list A) :
  forall i, List.length (Array_mapi f i l) = List.length l.
Proof. induction l as [|x l IH]; intros i; simpl; [|rewrite IH]; reflexivity. Qed.

Lemma Array_mapi_nth_error {A B : Type} (f : A -> nat -> B) (l : list A) :
  forall i k y,
    nth_error (Array_mapi f i l) k = Some y ->
    exists x, nth_error l k = Some x /\ y = f x (i + k)%nat.
Proof.
  induction l as [|x l IH]; intros i k y H.
  - destruct k; discriminate.
  - destruct k as [|k]; simpl in H.
    + injection H as <-. exists x. rewrite Nat.add_0_r. auto.
    + destruct (IH (S i) k y H) as [x' [Hx ->]].
      exists x'. rewrite Nat.add_succ_r. auto.
Qed.

Lemma Array_mapi_In {A B : Type} (f : A -> nat -> B) (l : list A) :
  forall i y, In y (Array_mapi f i l) -> exists x j, In x l /\ y = f x j.
Proof.
  induction l as [|x l IH]; intros i y H; simpl in H; [contradiction|].
  destruct H as [<-|H].
  - exists x, i. split; [left|]; reflexivity.
  - destruct (IH (S i) y H) as [x' [j [Hx ->]]].
    exists x', j. split; [right; exact Hx | reflexivity].
Qed.

Lemma items_regions (l : list ZoomRegion) :
  forall i,
    map (fun it => regionOf (item_id it) (item_span it)) (Array_mapi item i l) = l.
Proof.
  induction l as [|[n s e] l IH]; intros i; simpl; [|rewrite IH]; reflexivity.
Qed.

Lemma items_sorted (l : list ZoomRegion) :
  StronglySorted (fun a b => startMs a <= startMs b) l ->
  forall i,
    StronglySorted
      (fun a b => span_start (item_span a) <= span_start (item_span b))
      (Array_mapi item i l).
Proof.
  induction 1 as [|x l Hl IH Hx]; intros i; simpl; constructor.
  - apply IH.
  - apply Forall_forall. intros y Hy.
    destruct (Array_mapi_In _ _ _ _ Hy) as [r [j [Hr ->]]].
    rewrite Forall_forall in Hx. exact (Hx r Hr).
Qed.

(** X16.  The items shown are the regions of the store, each once, with their
    identifiers and bounds, in ascending order of start; the item at
    position [k] (from 0) is labelled "Zoom k+1" and lies on the one row. *)
Theorem timelineItems_sorted_numbered (zoomRegions : list ZoomRegion) :
  let items := timelineItems zoomRegions in
  List.length items = List.length zoomRegions
  /\ Permutation (map (fun it => regionOf (item_id it) (item_span it)) items)
       zoomRegions
  /\ StronglySorted
       (fun a b => span_start (item_span a) <= span_start (item_span b)) items
  /\ forall k it,
       nth_error items k = Some it ->
       item_label it = ("Zoom " ++ Number_toString (Z.of_nat k + 1))%string
       /\ item_rowId it = ROW_ID.
Proof.
  cbv zeta. unfold timelineItems. fold item.
  split.
  { rewrite Array_mapi_length.
    apply Permutation_length, Array_sort_perm. }
  split.
  { rewrite items_regions. apply Array_sort_perm. }
  split.
  { apply items_sorted.
    apply (Array_sort_sorted startMs byStartMs). reflexivity. }
  intros k it H.
  destruct (Array_mapi_nth_error _ _ _ _ _ H) as [r [_ ->]].
  split; reflexivity.
Qed.

End TimelineItems.

(** ** [clampedRange], [PlaybackCursor] and [handleTimelineClick] *)

Lemma Qmin_cases (a b : Q) :
  (Qmin a b <= a /\ Qmin a b <= b /\ (Qmin a b == a \/ Qmin a b == b))%Q.
Proof.
  split; [apply Q.le_min_l|]. split; [apply Q.le_min_r|].
  destruct (Q.min_spec a b) as [[_ E]|[_ E]]; auto.
Qed.

Lemma Qmax_cases (a b : Q) :
  (a <= Qmax a b /\ b <= Qmax a b /\ (Qmax a b == a \/ Qmax a b == b))%Q.
Proof.
  split; [apply Q.le_max_l|]. split; [apply Q.le_max_r|].
  destruct (Q.max_spec a b) as [[_ E]|[_ E]]; auto.
Qed.

(** Names the innermost [Qmin] or [Qmax] of the goal and keeps its bounds. *)
Ltac no_Qminmax t :=
  lazymatch t with
  | context [Qmin _ _] => fail
  | context [Qmax _ _] => fail
  | _ => idtac
  end.

Ltac name_Qminmax :=
  repeat match goal with
  | |- context [Qmin ?a ?b] =>
      no_Qminmax a; no_Qminmax b;
      let v := fresh "v" in
      destruct (Qmin_cases a b) as [? [? ?]]; set (v := Qmin a b) in *; clearbody v
  | |- context [Qmax ?a ?b] =>
      no_Qminmax a; no_Qminmax b;
      let v := fresh "v" in
      destruct (Qmax_cases a b) as [? [? ?]]; set (v := Qmax a b) in *; clearbody v
  end.

Ltac split_cases :=
  repeat match goal with
  | H : _ \/ _ |- _ => destruct H
  end.

(** X17.  For a known duration the clamped range lies within the video; it keeps
    a range that does; and the window of the axis over a clamped range is
    that range. *)
Theorem clampedRange_within (range : Range) (totalMs : Z) :
  totalMs > 0 ->
  let clamped := clampedRange range totalMs in
  let total := inject_Z totalMs in
  (0 <= range_start clamped <= total)%Q
  /\ (range_end clamped <= total)%Q
  /\ ((0 <= range_start range)%Q -> (range_end range <= total)%Q ->
      (range_start range <= range_end range)%Q ->
      (range_start clamped == range_start range
       /\ range_end clamped == range_end range)%Q)
  /\ (axisVisibleStart total clamped == range_start clamped)%Q
  /\ (axisVisibleEnd total clamped == range_end clamped)%Q.
Proof.
  intros Hpos clamped total.
  assert (Ht : (0 < total)%Q) by (apply inject_Z_pos; lia).
  unfold clamped, clampedRange.
  rewrite (proj2 (Z.eqb_neq totalMs 0)) by lia.
  cbn [range_start range_end]. fold total.
  unfold axisVisibleStart, axisVisibleEnd, axisMaxTime.
  rewrite (proj2 (Qltb_lt 0 total) Ht). cbn [range_start range_end].
  repeat split; try intros; name_Qminmax; split_cases; lra.
Qed.

Lemma clampedRange_within_witness :
  2000 > 0 /\
  let clamped := clampedRange (mkRange (-5) 9000) 2000 in
  let total := inject_Z 2000 in
  (0 <= range_start clamped <= total)%Q
  /\ (range_end clamped <= total)%Q
  /\ ((0 <= -5)%Q -> (9000 <= total)%Q -> (-5 <= 9000)%Q ->
      (range_start clamped == -5 /\ range_end clamped == 9000)%Q)
  /\ (axisVisibleStart total clamped == range_start clamped)%Q
  /\ (axisVisibleEnd total clamped == range_end clamped)%Q.
Proof.
  split; [lia | apply (clampedRange_within (mkRange (-5) 9000) 2000); lia].
Defined.

(** X18.  The cursor is drawn only while a video is loaded and the current time,
    capped by the end of the video, is within the visible range; its
    offset is then that of a time between zero and the width of the
    range. *)
Theorem PlaybackCursor_shown (valueToPixels : Q -> Q) (range : Range)
  (currentTimeMs videoDurationMs offset : Q) :
  PlaybackCursor valueToPixels range currentTimeMs videoDurationMs = Some offset ->
  let clampedTime := Qmin currentTimeMs videoDurationMs in
  offset = valueToPixels (clampedTime - range_start range)%Q
  /\ (0 < videoDurationMs)%Q
  /\ (0 <= clampedTime <= videoDurationMs)%Q
  /\ (range_start range <= clampedTime <= range_end range)%Q
  /\ (0 <= clampedTime - range_start range
      <= range_end range - range_start range)%Q.
Proof.
  intros H clampedTime. unfold PlaybackCursor in H. fold clampedTime in H.
  destruct (Qle_bool videoDurationMs 0) eqn:Ev; [discriminate|].
  destruct (Qltb currentTimeMs 0) eqn:Ec; [discriminate|].
  cbn [orb] in H.
  destruct (Qltb clampedTime (range_start range)) eqn:E1; [discriminate|].
  destruct (Qltb (range_end range) clampedTime) eqn:E2; [discriminate|].
  cbn [orb] in H. injection H as <-.
  apply Qle_bool_false in Ev.
  assert (Hc : (0 <= currentTimeMs)%Q).
  { apply Qnot_lt_le. intros L. apply Qltb_lt in L. congruence. }
  assert (H1 : (range_start range <= clampedTime)%Q).
  { apply Qnot_lt_le. intros L. apply Qltb_lt in L. congruence. }
  assert (H2 : (clampedTime <= range_end range)%Q).
  { apply Qnot_lt_le. intros L. apply Qltb_lt in L. congruence. }
  destruct (Qmin_cases currentTimeMs videoDurationMs) as [Ha [Hb Hab]].
  fold clampedTime in Ha, Hb, Hab.
  split; [reflexivity|]. split; [exact Ev|].
  repeat split; try assumption; destruct Hab; lra.
Qed.

Lemma PlaybackCursor_shown_witness :
  PlaybackCursor (fun ms => ms * 2)%Q (mkRange 1000 5000) 7000 3000 = Some 4000%Q
  /\ let clampedTime := Qmin 7000 3000 in
     4000%Q = ((clampedTime - 1000) * 2)%Q
     /\ (0 < 3000)%Q
     /\ (0 <= clampedTime <= 3000)%Q
     /\ (1000 <= clampedTime <= 5000)%Q
     /\ (0 <= clampedTime - 1000 <= 5000 - 1000)%Q.
Proof.
  split; [reflexivity|].
  apply (PlaybackCursor_shown (fun ms => ms * 2)%Q (mkRange 1000 5000) 7000 3000 4000).
  reflexivity.
Defined.


(** ** Marker Generator: which times are marked *)

Section MarkerLoopVisits.

Variables intervalMs visibleStart visibleEnd maxTime : Q.
Hypothesis interval_pos : (0 < intervalMs)%Q.

Lemma markerLoop_keeps (fuel : nat) :
  forall (time : Q) (acc l : list Z) (t : Z),
    markerLoop fuel intervalMs visibleStart visibleEnd maxTime time acc = Returned l ->
    In t acc -> In t l.
Proof.
  induction fuel as [|fuel IH]; intros time acc l t Hrun Hin; simpl in Hrun.
  - destruct (Qle_bool time maxTime); [discriminate|]. injection Hrun as <-. exact Hin.
  - destruct (Qle_bool time maxTime); [|injection Hrun as <-; exact Hin].
    apply (IH _ _ _ t) in Hrun; [exact Hrun|].
    destruct (_ && _); [apply Set_add_In; right|]; exact Hin.
Qed.

(** The loop adds every time [time + j * intervalMs] of the window that is
    not past [maxTime]. *)
Lemma markerLoop_visits (fuel : nat) :
  forall (time : Q) (acc l : list Z) (j : nat) (t : Q),
    markerLoop fuel intervalMs visibleStart visibleEnd maxTime time acc = Returned l ->
    (t == time + inject_Z (Z.of_nat j) * intervalMs)%Q ->
    (t <= maxTime)%Q -> (visibleStart <= t)%Q -> (t <= visibleEnd)%Q ->
    In (Math_round t) l.
Proof.
  induction fuel as [|fuel IH]; intros time acc l j t Hrun Ht Hmax Hs He;
    simpl in Hrun.
  - assert (Hj : (0 <= inject_Z (Z.of_nat j))%Q) by (apply inject_Z_nonneg; lia).
    assert (Hle : (time <= maxTime)%Q) by nra.
    rewrite (proj2 (Qle_bool_iff _ _) Hle) in Hrun. discriminate.
  - assert (Hj : (0 <= inject_Z (Z.of_nat j))%Q) by (apply inject_Z_nonneg; lia).
    assert (Hle : (time <= maxTime)%Q) by nra.
    rewrite (proj2 (Qle_bool_iff _ _) Hle) in Hrun.
    destruct j as [|j].
    + change (inject_Z (Z.of_nat 0)) with 0%Q in Ht.
      assert (Et : (t == time)%Q) by (rewrite Ht; ring).
      assert (E1 : Qle_bool visibleStart time = true)
        by (apply Qle_bool_iff; rewrite <- Et; exact Hs).
      assert (E2 : Qle_bool time visibleEnd = true)
        by (apply Qle_bool_iff; rewrite <- Et; exact He).
      rewrite E1, E2 in Hrun. cbn [andb] in Hrun.
      apply (markerLoop_keeps _ _ _ _ (Math_round t)) in Hrun; [exact Hrun|].
      apply Set_add_In. left. unfold Math_round. apply Qfloor_comp.
      rewrite Et. reflexivity.
    + apply (IH _ _ _ j t) in Hrun; try assumption.
      rewrite Ht, Nat2Z.inj_succ. unfold Z.succ. rewrite inject_Z_plus.
      change (inject_Z 1) with 1%Q. ring.
Qed.

End MarkerLoopVisits.

(** The times of the markers: the times the loop collects, the rounded
    start of the window and the rounded end of the video, as far as they
    are not past [maxTime]. *)
Lemma markers_times (tieUp : Z -> bool) (intervalMs : Q) (range : Range)
  (videoDurationMs : Q) :
  (0 < intervalMs)%Q ->
  let maxTime := axisMaxTime videoDurationMs range in
  let visibleStart := axisVisibleStart videoDurationMs range in
  let visibleEnd := axisVisibleEnd videoDurationMs range in
  let firstMarker :=
    (inject_Z (Math_ceil (visibleStart / intervalMs)) * intervalMs)%Q in
  exists (l : list Z) (ms : list Marker),
    markerLoop (markerFuel intervalMs maxTime firstMarker) intervalMs visibleStart
      visibleEnd maxTime firstMarker [] = Returned l
    /\ markers tieUp intervalMs range videoDurationMs = Returned ms
    /\ forall t, In t (map time ms) <->
         (inject_Z t <= maxTime)%Q
         /\ (In t l
             \/ ((visibleStart <= maxTime)%Q /\ t = Math_round visibleStart)
             \/ ((0 < videoDurationMs)%Q /\ t = Math_round videoDurationMs)).
Proof.
  intros Hpos maxTime visibleStart visibleEnd firstMarker. unfold markers.
  rewrite (proj2 (Qle_bool_false intervalMs 0) Hpos).
  fold maxTime visibleStart visibleEnd.
  unfold Number_div.
  destruct (Qeq_bool intervalMs 0) eqn:Ez.
  { apply Qeq_bool_iff in Ez. lra. }
  cbn [bind]. fold firstMarker.
  destruct (markerLoop_returns intervalMs visibleStart visibleEnd maxTime
              (markerFuel intervalMs maxTime firstMarker) firstMarker [])
    as [l Hl].
  { apply markerFuel_enough, Hpos. }
  rewrite Hl. cbn [bind].
  eexists l, _. split; [reflexivity|]. split; [reflexivity|].
  intros t. rewrite map_time_mkMarker.
  rewrite (Array_sort_In (fun a b => a - b)), filter_In, Qle_bool_iff.
  assert (H1 : forall l0,
            In t (if Qltb 0 videoDurationMs
                  then Set_add (Math_round videoDurationMs) l0 else l0)
            <-> In t l0 \/ ((0 < videoDurationMs)%Q /\ t = Math_round videoDurationMs)).
  { intros l0. destruct (Qltb 0 videoDurationMs) eqn:E.
    - apply Qltb_lt in E. rewrite Set_add_In. tauto.
    - split; [tauto|]. intros [H|[H _]]; [exact H|].
      apply Qltb_lt in H. congruence. }
  assert (H2 : In t (if Qle_bool visibleStart maxTime
                     then Set_add (Math_round visibleStart) l else l)
               <-> In t l \/ ((visibleStart <= maxTime)%Q /\ t = Math_round visibleStart)).
  { destruct (Qle_bool visibleStart maxTime) eqn:E.
    - apply Qle_bool_iff in E. rewrite Set_add_In. tauto.
    - split; [tauto|]. intros [H|[H _]]; [exact H|].
      apply Qle_bool_iff in H. congruence. }
  rewrite H1, H2. tauto.
Qed.

(** X20.  Every multiple of the interval within the visible window has a marker
    (for one that is not a whole number of milliseconds, its rounding, if
    that is not past [maxTime]). *)
Theorem markers_grid_complete (tieUp : Z -> bool) (intervalMs : Q) (range : Range)
  (videoDurationMs : Q) (k : Z) :
  (0 < intervalMs)%Q ->
  let t := (inject_Z k * intervalMs)%Q in
  (axisVisibleStart videoDurationMs range <= t)%Q ->
  (t <= axisVisibleEnd videoDurationMs range)%Q ->
  (inject_Z (Math_round t) <= axisMaxTime videoDurationMs range)%Q ->
  exists ms,
    markers tieUp intervalMs range videoDurationMs = Returned ms
    /\ In (Math_round t) (map time ms).
Proof.
  intros Hpos t Hs He Hround.
  destruct (markers_times tieUp intervalMs range videoDurationMs Hpos)
    as [l [ms [Hl [Hms Htimes]]]].
  exists ms. split; [exact Hms|].
  apply Htimes. split; [exact Hround|]. left.
  set (vs := axisVisibleStart videoDurationMs range) in *.
  set (c := Math_ceil (vs / intervalMs)) in *.
  assert (Hc : c <= k).
  { unfold c, Math_ceil. rewrite <- (Qceiling_Z k). apply Qceiling_resp_le.
    apply Qle_shift_div_r; [exact Hpos | exact Hs]. }
  apply (markerLoop_visits intervalMs vs (axisVisibleEnd videoDurationMs range)
           (axisMaxTime videoDurationMs range) Hpos _ _ _ _ (Z.to_nat (k - c)) t Hl);
    try assumption.
  - rewrite Z2Nat.id by lia. unfold t, Zminus.
    rewrite inject_Z_plus, inject_Z_opp. ring.
  - eapply Qle_trans; [exact He|]. unfold axisVisibleEnd. apply Q.le_min_r.
Qed.

Lemma markers_grid_complete_witness :
  (0 < 250)%Q /\
  let t := (inject_Z 7 * 250)%Q in
  (axisVisibleStart 2600 (mkRange 1500 3000) <= t)%Q
  /\ (t <= axisVisibleEnd 2600 (mkRange 1500 3000))%Q
  /\ (inject_Z (Math_round t) <= axisMaxTime 2600 (mkRange 1500 3000))%Q
  /\ exists ms,
       markers (fun _ => true) 250 (mkRange 1500 3000) 2600 = Returned ms
       /\ In (Math_round t) (map time ms).
Proof.
  assert (H0 : (0 < 250)%Q) by reflexivity.
  assert (H1 : (axisVisibleStart 2600 (mkRange 1500 3000) <= inject_Z 7 * 250)%Q)
    by (vm_compute; discriminate).
  assert (H2 : (inject_Z 7 * 250 <= axisVisibleEnd 2600 (mkRange 1500 3000))%Q)
    by (vm_compute; discriminate).
  assert (H3 : (inject_Z (Math_round (inject_Z 7 * 250))
                <= axisMaxTime 2600 (mkRange 1500 3000))%Q)
    by (vm_compute; discriminate).
  split; [exact H0|]. split; [exact H1|]. split; [exact H2|]. split; [exact H3|].
  apply (markers_grid_complete (fun _ => true) 250 (mkRange 1500 3000) 2600 7
           H0 H1 H2 H3).
Defined.

(** X21.  The axis always shows where the window starts and where the video
    ends: both times are marked (a time that is not a whole number of
    milliseconds by its rounding, if that is not past [maxTime]). *)
Theorem markers_start_and_end (tieUp : Z -> bool) (intervalMs : Q) (range : Range)
  (videoDurationMs : Q) :
  (0 < intervalMs)%Q ->
  let maxTime := axisMaxTime videoDurationMs range in
  let visibleStart := axisVisibleStart videoDurationMs range in
  exists ms,
    markers tieUp intervalMs range videoDurationMs = Returned ms
    /\ ((visibleStart <= maxTime)%Q ->
        (inject_Z (Math_round visibleStart) <= maxTime)%Q ->
        In (Math_round visibleStart) (map time ms))
    /\ ((0 < videoDurationMs)%Q ->
        (inject_Z (Math_round videoDurationMs) <= videoDurationMs)%Q ->
        In (Math_round videoDurationMs) (map time ms)).
Proof.
  intros Hpos maxTime visibleStart.
  destruct (markers_times tieUp intervalMs range videoDurationMs Hpos)
    as [l [ms [_ [Hms Htimes]]]].
  exists ms. split; [exact Hms|]. split.
  - intros H1 H2. apply Htimes. auto.
  - intros H1 H2. apply Htimes. split; [|auto].
    unfold axisMaxTime. rewrite (proj2 (Qltb_lt _ _) H1). exact H2.
Qed.

Lemma markers_start_and_end_witness :
  (0 < 1000)%Q /\
  exists ms,
    markers (fun _ => true) 1000 (mkRange 1500 5000) 10000 = Returned ms
    /\ ((axisVisibleStart 10000 (mkRange 1500 5000)
         <= axisMaxTime 10000 (mkRange 1500 5000))%Q ->
        (inject_Z (Math_round (axisVisibleStart 10000 (mkRange 1500 5000)))
         <= axisMaxTime 10000 (mkRange 1500 5000))%Q ->
        In (Math_round (axisVisibleStart 10000 (mkRange 1500 5000))) (map time ms))
    /\ ((0 < 10000)%Q ->
        (inject_Z (Math_round 10000) <= 10000)%Q ->
        In (Math_round 10000) (map time ms)).
Proof.
  split; [reflexivity|].
  apply (markers_start_and_end (fun _ => true) 1000 (mkRange 1500 5000) 10000).
  reflexivity.
Defined.

(** ** Label Formatter: what a label tells *)

Lemma fractionalDigitsOf_cases (intervalMs : Q) :
  ((1000 <= intervalMs)%Q /\ fractionalDigitsOf intervalMs = 0%nat)
  \/ ((250 <= intervalMs < 1000)%Q /\ fractionalDigitsOf intervalMs = 1%nat)
  \/ ((intervalMs < 250)%Q /\ fractionalDigitsOf intervalMs = 2%nat).
Proof.
  unfold fractionalDigitsOf.
  destruct (Qltb intervalMs 250) eqn:E1.
  - apply Qltb_lt in E1. right; right. auto.
  - assert (250 <= intervalMs)%Q
      by (apply Qnot_lt_le; intros L; apply Qltb_lt in L; congruence).
    destruct (Qltb intervalMs 1000) eqn:E2.
    + apply Qltb_lt in E2. right; left. auto.
    + left. split; [|reflexivity].
      apply Qnot_lt_le. intros L. apply Qltb_lt in L. congruence.
Qed.

Lemma labelTime_whole (tieUp : Z -> bool) (ms : Z) (intervalMs : Q) :
  (1000 <= intervalMs)%Q \/ 3600000 <= ms ->
  labelTime tieUp ms intervalMs = inject_Z (ms / 1000).
Proof.
  intros [Hi|Hh]; unfold labelTime.
  - destruct (fractionalDigitsOf_cases intervalMs) as [[_ ->]|[[[_ H] _]|[H _]]];
      [|lra|lra].
    rewrite orb_true_r. reflexivity.
  - assert (1 <= ms / 3600000) by (apply Z.div_le_lower_bound; lia).
    rewrite (proj2 (Z.gtb_lt _ _)) by lia. reflexivity.
Qed.

(** X22.  At intervals of a second or more, and from the first hour on, a label
    reads as the whole seconds of the time formatted. *)
Theorem formatTimeLabel_whole_seconds (tieUp : Z -> bool) (ms : Z) (intervalMs : Q) :
  0 <= ms ->
  (1000 <= intervalMs)%Q \/ 3600000 <= ms ->
  exists t : Q,
    labelSeconds (formatTimeLabel tieUp ms intervalMs) = Some t
    /\ (t == inject_Z (ms / 1000))%Q.
Proof.
  intros Hms Htier.
  destruct (labelSeconds_formatTimeLabel tieUp ms intervalMs Hms) as [t [L E]].
  exists t. split; [exact L|].
  rewrite E, (labelTime_whole tieUp ms intervalMs Htier). reflexivity.
Qed.

Lemma formatTimeLabel_whole_seconds_witness :
  0 <= 3725999 /\ ((1000 <= 100)%Q \/ 3600000 <= 3725999)
  /\ exists t : Q,
       labelSeconds (formatTimeLabel (fun _ => true) 3725999 100) = Some t
       /\ (t == inject_Z (3725999 / 1000))%Q.
Proof.
  split; [lia|]. split; [right; lia|].
  apply (formatTimeLabel_whole_seconds (fun _ => true) 3725999 100); [lia|right; lia].
Defined.

Lemma roundedUnits_near (tieUp : bool) (ms unit : Z) :
  0 < unit ->
  - unit <= 2 * (roundedUnits tieUp ms unit * unit - ms) <= unit.
Proof.
  intros Hu. unfold roundedUnits.
  pose proof (Z.div_mod ms unit ltac:(lia)) as D.
  pose proof (Z.mod_pos_bound ms unit Hu) as B.
  destruct (Z.ltb_spec (2 * (ms mod unit)) unit); [nia|].
  destruct (Z.ltb_spec unit (2 * (ms mod unit))); [nia|].
  destruct tieUp; nia.
Qed.

Lemma near_units (N M u p : Q) :
  (0 < u)%Q -> (u * p == 1000)%Q ->
  (- u <= 2 * (N * u + - M))%Q -> (2 * (N * u + - M) <= u)%Q ->
  (- (1 # 2) / p <= N / p - M / 1000 <= (1 # 2) / p)%Q.
Proof.
  intros Hu Hp Hlo Hhi.
  assert (Hpp : (0 < p)%Q).
  { destruct (Qlt_le_dec 0 p) as [|Hle]; [assumption|]. exfalso. nra. }
  assert (E1 : (N / p - M / 1000 == (N * u + - M) / 1000)%Q).
  { rewrite <- Hp. field. split; lra. }
  assert (E2 : ((1 # 2) / p == u * (1 # 2) / 1000)%Q).
  { rewrite <- Hp. field. split; lra. }
  assert (E3 : (- (1 # 2) / p == - (u * (1 # 2) / 1000))%Q).
  { rewrite <- E2. field. lra. }
  rewrite E1, E2, E3. split.
  - apply Qle_shift_div_l; [lra|].
    assert (E4 : (- (u * (1 # 2) / 1000) * 1000 == - (u * (1 # 2)))%Q) by field.
    rewrite E4. lra.
  - apply Qle_shift_div_r; [lra|].
    assert (E4 : (u * (1 # 2) / 1000 * 1000 == u * (1 # 2))%Q) by field.
    rewrite E4. lra.
Qed.

(** X23.  Within the first hour and at intervals under a second, a label reads
    as the time formatted to within half a unit of its last digit: tenths
    for intervals from 250 ms, hundredths below. *)
Theorem formatTimeLabel_fraction (tieUp : Z -> bool) (ms : Z) (intervalMs : Q) :
  0 <= ms < 3600000 ->
  (intervalMs < 1000)%Q ->
  let digits := if Qltb intervalMs 250 then 2 else 1 in
  exists t : Q,
    labelSeconds (formatTimeLabel tieUp ms intervalMs) = Some t
    /\ (- (1 # 2) / inject_Z (10 ^ digits)
        <= t - inject_Z ms / 1000
        <= (1 # 2) / inject_Z (10 ^ digits))%Q.
Proof.
  intros Hms Hi digits.
  destruct (labelSeconds_formatTimeLabel tieUp ms intervalMs ltac:(lia)) as [t [L E]].
  exists t. split; [exact L|].
  unfold labelTime in E.
  rewrite (Z.div_small ms 3600000) in E by lia. cbn [Z.gtb Z.compare orb] in E.
  assert (Hf : (fractionalDigitsOf intervalMs = 1%nat /\ digits = 1)
               \/ (fractionalDigitsOf intervalMs = 2%nat /\ digits = 2)).
  { unfold digits, fractionalDigitsOf.
    destruct (Qltb intervalMs 250); [right; auto|].
    rewrite (proj2 (Qltb_lt _ _) Hi). left; auto. }
  destruct Hf as [[Ef ->]|[Ef ->]]; rewrite Ef in E; cbn [Nat.eqb] in E.
  - change (1000 / 10 ^ Z.of_nat 1) with 100 in E.
    change (10 ^ Z.of_nat 1) with 10 in E. change (10 ^ 1) with 10.
    pose proof (roundedUnits_near (tieUp ms) ms 100 ltac:(lia)) as Hn.
    set (n := roundedUnits (tieUp ms) ms 100) in *.
    destruct Hn as [Hlo Hhi]. rewrite Zle_Qle in Hlo, Hhi.
    unfold Zminus in Hlo, Hhi.
    rewrite !inject_Z_mult, inject_Z_plus, inject_Z_opp, inject_Z_mult in Hlo, Hhi.
    rewrite ?inject_Z_opp in Hlo.
    change (inject_Z 2) with 2%Q in *. change (inject_Z 100) with 100%Q in *.
    rewrite E. change (inject_Z 10) with 10%Q.
    apply (near_units _ _ 100 10); [reflexivity | reflexivity | exact Hlo | exact Hhi].
  - change (1000 / 10 ^ Z.of_nat 2) with 10 in E.
    change (10 ^ Z.of_nat 2) with 100 in E. change (10 ^ 2) with 100.
    pose proof (roundedUnits_near (tieUp ms) ms 10 ltac:(lia)) as Hn.
    set (n := roundedUnits (tieUp ms) ms 10) in *.
    destruct Hn as [Hlo Hhi]. rewrite Zle_Qle in Hlo, Hhi.
    unfold Zminus in Hlo, Hhi.
    rewrite !inject_Z_mult, inject_Z_plus, inject_Z_opp, inject_Z_mult in Hlo, Hhi.
    rewrite ?inject_Z_opp in Hlo.
    change (inject_Z 2) with 2%Q in *. change (inject_Z 10) with 10%Q in *.
    rewrite E. change (inject_Z 100) with 100%Q.
    apply (near_units _ _ 10 100); [reflexivity | reflexivity | exact Hlo | exact Hhi].
Qed.

Lemma formatTimeLabel_fraction_witness :
  0 <= 59960 < 3600000 /\ (500 < 1000)%Q
  /\ let digits := if Qltb 500 250 then 2 else 1 in
     exists t : Q,
       labelSeconds (formatTimeLabel (fun _ => true) 59960 500) = Some t
       /\ (- (1 # 2) / inject_Z (10 ^ digits)
           <= t - inject_Z 59960 / 1000
           <= (1 # 2) / inject_Z (10 ^ digits))%Q.
Proof.
  split; [lia|]. split; [reflexivity|].
  apply (formatTimeLabel_fraction (fun _ => true) 59960 500); [lia | reflexivity].
Defined.

(** The time a label shows does not decrease with the time formatted, also
    from one hour to the next. *)
Lemma labelTime_le_any (tieUp : Z -> bool) (intervalMs : Q) (ms1 ms2 : Z) :
  0 <= ms1 -> ms1 < ms2 ->
  (labelTime tieUp ms1 intervalMs <= labelTime tieUp ms2 intervalMs)%Q.
Proof.
  intros H0 Hlt.
  destruct (Z.eq_dec (ms1 / 3600000) (ms2 / 3600000)) as [E|N];
    [apply labelTime_le; assumption|].
  assert (Hh : ms1 / 3600000 < ms2 / 3600000).
  { assert (ms1 / 3600000 <= ms2 / 3600000) by (apply Z.div_le_mono; lia). lia. }
  assert (Hh1 : 0 <= ms1 / 3600000) by (apply Z.div_pos; lia).
  assert (H2 : 3600000 <= ms2).
  { destruct (Z_lt_dec ms2 3600000) as [L|]; [|lia].
    rewrite (Z.div_small ms2) in Hh by lia. lia. }
  rewrite (labelTime_whole tieUp ms2 intervalMs (or_intror H2)).
  unfold labelTime.
  set (f := fractionalDigitsOf intervalMs).
  destruct ((ms1 / 3600000 >? 0) || (f =? 0)%nat) eqn:C.
  - rewrite <- Zle_Qle. apply Z.div_le_mono; lia.
  - apply orb_false_iff in C. destruct C as [C1 C2].
    assert (Hs : ms1 < 3600000).
    { destruct (Z_lt_dec ms1 3600000) as [|G]; [assumption|].
      assert (1 <= ms1 / 3600000) by (apply Z.div_le_lower_bound; lia).
      rewrite (proj2 (Z.gtb_lt _ _)) in C1 by lia. discriminate. }
    assert (Hf : f = 1%nat \/ f = 2%nat).
    { destruct (fractionalDigitsOf_cases intervalMs) as [[_ E]|[[_ E]|[_ E]]];
        fold f in E; rewrite E in *; [discriminate | auto | auto]. }
    assert (Hb : forall u, 0 < u -> 3600000 mod u = 0 ->
                   roundedUnits (tieUp ms1) ms1 u <= 3600000 / u).
    { intros u Hu Hdiv.
      assert (ms1 / u < 3600000 / u).
      { apply Z.div_lt_upper_bound; [lia|].
        rewrite <- Z_div_exact_full_2 by lia. lia. }
      unfold roundedUnits. destruct (_ <? _); [lia|].
      destruct (_ <? _); [lia|]. destruct (tieUp ms1); lia. }
    assert (H3600 : 3600 <= ms2 / 1000) by (apply Z.div_le_lower_bound; lia).
    rewrite Zle_Qle in H3600. change (inject_Z 3600) with 3600%Q in H3600.
    destruct Hf as [->| ->].
    + change (1000 / 10 ^ Z.of_nat 1) with 100. change (10 ^ Z.of_nat 1) with 10.
      specialize (Hb 100 ltac:(lia) eq_refl). change (3600000 / 100) with 36000 in Hb.
      rewrite Zle_Qle in Hb. change (inject_Z 36000) with 36000%Q in Hb.
      change (inject_Z 10) with 10%Q.
      apply Qle_shift_div_r; [reflexivity | lra].
    + change (1000 / 10 ^ Z.of_nat 2) with 10. change (10 ^ Z.of_nat 2) with 100.
      specialize (Hb 10 ltac:(lia) eq_refl). change (3600000 / 10) with 360000 in Hb.
      rewrite Zle_Qle in Hb. change (inject_Z 360000) with 360000%Q in Hb.
      change (inject_Z 100) with 100%Q.
      apply Qle_shift_div_r; [reflexivity | lra].
Qed.

(** X24.  Labels keep the order of time across the hours too: of two times of
    zero or more, whatever their hours, the label of the earlier never
    reads as a later time than the label of the later. *)
Theorem formatTimeLabel_monotone_any_hour (tieUp : Z -> bool) (intervalMs : Q)
  (ms1 ms2 : Z) :
  0 <= ms1 -> ms1 < ms2 ->
  exists t1 t2 : Q,
    labelSeconds (formatTimeLabel tieUp ms1 intervalMs) = Some t1
    /\ labelSeconds (formatTimeLabel tieUp ms2 intervalMs) = Some t2
    /\ (t1 <= t2)%Q.
Proof.
  intros H0 Hlt.
  destruct (labelSeconds_formatTimeLabel tieUp ms1 intervalMs H0) as [t1 [L1 E1]].
  destruct (labelSeconds_formatTimeLabel tieUp ms2 intervalMs ltac:(lia))
    as [t2 [L2 E2]].
  exists t1, t2. split; [exact L1|]. split; [exact L2|].
  rewrite E1, E2. apply labelTime_le_any; assumption.
Qed.

Lemma formatTimeLabel_monotone_any_hour_witness :
  0 <= 3599960 /\ 3599960 < 3600000
  /\ exists t1 t2 : Q,
       labelSeconds (formatTimeLabel (fun _ => true) 3599960 500) = Some t1
       /\ labelSeconds (formatTimeLabel (fun _ => true) 3600000 500) = Some t2
       /\ (t1 <= t2)%Q.
Proof.
  split; [lia|]. split; [lia|].
  apply (formatTimeLabel_monotone_any_hour (fun _ => true) 500 3599960 3600000); lia.
Defined.

(** At intervals of a second or more the label is a function of the whole
    seconds. *)
Lemma formatTimeLabel_of_whole_seconds (tieUp : Z -> bool) (ms : Z) (intervalMs : Q) :
  0 <= ms -> (1000 <= intervalMs)%Q ->
  formatTimeLabel tieUp ms intervalMs
  = let q := ms / 1000 in
    if q / 3600 >? 0 then
      (Number_toString (q / 3600) ++ ":"
         ++ padStart 2 "0" (Number_toString (q mod 3600 / 60)) ++ ":"
         ++ padStart 2 "0" (Number_toString (q mod 60)))%string
    else
      (Number_toString (q mod 3600 / 60) ++ ":"
         ++ padStart 2 "0" (Number_toString (q mod 60)))%string.
Proof.
  intros Hms Hi. unfold formatTimeLabel.
  rewrite (label_hours ms), (label_minutes ms Hms), (label_whole_seconds ms Hms).
  assert (E1 : Qltb intervalMs 250 = false).
  { destruct (Qltb intervalMs 250) eqn:E; [apply Qltb_lt in E; lra | reflexivity]. }
  assert (E2 : Qltb intervalMs 1000 = false).
  { destruct (Qltb intervalMs 1000) eqn:E; [apply Qltb_lt in E; lra | reflexivity]. }
  rewrite E1, E2. cbn [Nat.ltb Nat.leb]. cbv zeta.
  assert (Hh : ms / 3600000 = ms / 1000 / 3600)
    by (rewrite Z.div_div by lia; reflexivity).
  assert (Hm : ms mod 3600000 / 60000 = (ms / 1000) mod 3600 / 60).
  { pose proof (Z.div_mod ms 3600000 ltac:(lia)).
    pose proof (Z.mod_pos_bound ms 3600000 ltac:(lia)).
    pose proof (Z.div_mod ms 1000 ltac:(lia)).
    pose proof (Z.mod_pos_bound ms 1000 ltac:(lia)).
    pose proof (Z.div_mod (ms / 1000) 3600 ltac:(lia)).
    pose proof (Z.mod_pos_bound (ms / 1000) 3600 ltac:(lia)).
    pose proof (Z.div_mod (ms mod 3600000) 60000 ltac:(lia)).
    pose proof (Z.mod_pos_bound (ms mod 3600000) 60000 ltac:(lia)).
    pose proof (Z.div_mod ((ms / 1000) mod 3600) 60 ltac:(lia)).
    pose proof (Z.mod_pos_bound ((ms / 1000) mod 3600) 60 ltac:(lia)).
    rewrite Hh in *. lia. }
  assert (Hs : ms mod 60000 / 1000 = (ms / 1000) mod 60).
  { pose proof (Z.div_mod ms 60000 ltac:(lia)).
    pose proof (Z.mod_pos_bound ms 60000 ltac:(lia)).
    pose proof (Z.div_mod ms 1000 ltac:(lia)).
    pose proof (Z.mod_pos_bound ms 1000 ltac:(lia)).
    pose proof (Z.div_mod (ms / 1000) 60 ltac:(lia)).
    pose proof (Z.mod_pos_bound (ms / 1000) 60 ltac:(lia)).
    pose proof (Z.div_mod (ms mod 60000) 1000 ltac:(lia)).
    pose proof (Z.mod_pos_bound (ms mod 60000) 1000 ltac:(lia)).
    lia. }
  rewrite Hh, Hm, Hs. reflexivity.
Qed.

(** X25.  At intervals of a second or more, two times of zero or more have the
    same label exactly when they lie in the same whole second. *)
Theorem formatTimeLabel_same_label (tieUp : Z -> bool) (intervalMs : Q)
  (ms1 ms2 : Z) :
  (1000 <= intervalMs)%Q -> 0 <= ms1 -> 0 <= ms2 ->
  (formatTimeLabel tieUp ms1 intervalMs = formatTimeLabel tieUp ms2 intervalMs
   <-> ms1 / 1000 = ms2 / 1000).
Proof.
  intros Hi H1 H2. split.
  - intros Heq.
    destruct (labelSeconds_formatTimeLabel tieUp ms1 intervalMs H1) as [t1 [L1 E1]].
    destruct (labelSeconds_formatTimeLabel tieUp ms2 intervalMs H2) as [t2 [L2 E2]].
    rewrite Heq, L2 in L1. injection L1 as Ht. subst t2.
    rewrite (labelTime_whole tieUp ms1 intervalMs (or_introl Hi)) in E1.
    rewrite (labelTime_whole tieUp ms2 intervalMs (or_introl Hi)) in E2.
    apply inject_Z_injective. rewrite <- E1, <- E2. reflexivity.
  - intros Heq.
    rewrite !formatTimeLabel_of_whole_seconds by assumption.
    rewrite Heq. reflexivity.
Qed.

Lemma formatTimeLabel_same_label_witness :
  (1000 <= 1000)%Q /\ 0 <= 61000 /\ 0 <= 61999
  /\ (formatTimeLabel (fun _ => true) 61000 1000
      = formatTimeLabel (fun _ => true) 61999 1000
      <-> 61000 / 1000 = 61999 / 1000).
Proof.
  split; [apply Qle_refl|]. split; [lia|]. split; [lia|].
  apply (formatTimeLabel_same_label (fun _ => true) 1000 61000 61999);
    [apply Qle_refl | lia | lia].
Defined.
